(** * WebPPL: the compiler driver and the optimisation loop

    A shallow embedding of [src/main.js] (the compiler driver: package
    parsing, [concatPrograms], [applyCaching], [copyAst], [compile], [run],
    [runTrampoline]) and of [src/inference/optimize.js] ([Optimize]).

    The AST-to-AST transforms ([transforms/*.js], [syntax.js], [caching.js]),
    the parser (sweet.js), the code generator (escodegen) and [util.js] are
    outside these two files; the transforms are taken as an interface
    ([Externals]) and the driver is verified for every implementation of that
    interface. *)

From Stdlib Require Import ZArith.
From stdpp Require Import gmap strings list pretty.

Open Scope string_scope.
Open Scope list_scope.
Set Warnings "-register-all".

(** ** JavaScript object trees *)

Module Js.

(** Values that [_.isObject] rejects: they are copied by reference.  Numbers
    are IEEE doubles in the source; only their identity matters here. *)
Inductive prim :=
| PUndefined
| PNull
| PBool (b : bool)
| PNum (z : Z)
| PNaN
| PStr (s : string).

(** What [copyAst] can meet inside an AST: plain arrays, plain objects (own
    enumerable properties in insertion order), and host objects that
    [_.isObject] accepts but that have no own enumerable property and no
    [length] (a RegExp in a literal node). *)
Inductive tree :=
| Prim (p : prim)
| Arr (elts : list tree)
| Obj (props : list (string * tree))
| Host (tag : string).

Definition isObject (t : tree) : bool :=
  match t with Prim _ => false | _ => true end.

Definition isArray (t : tree) : bool :=
  match t with Arr _ => true | _ => false end.

(** Trees built from primitives, arrays and plain objects only. *)
Fixpoint plain (t : tree) : bool :=
  match t with
  | Prim _ => true
  | Arr elts => forallb plain elts
  | Obj props => forallb (fun kv => plain kv.2) props
  | Host _ => false
  end.

(** Keys that are not met in an AST and are not handled as the others are:
    [_.each] takes an object with a numeric [length] for an array and visits
    its indices [0 .. length-1], not its keys, and [ret[key] = ..] with the
    key [__proto__] sets no property. *)
Definition ordinaryKey (key : string) : bool :=
  negb (String.eqb key "length") && negb (String.eqb key "__proto__").

(** Trees whose objects have ordinary keys only. *)
Fixpoint ordinaryKeys (t : tree) : bool :=
  match t with
  | Prim _ | Host _ => true
  | Arr elts => forallb ordinaryKeys elts
  | Obj props => forallb (fun kv => ordinaryKey kv.1 && ordinaryKeys kv.2) props
  end.

End Js.

Export Js.

(** ** Programs *)

(** A Program node, as far as the driver looks into it: [p.body]. *)
Record program := build_program { body : list tree }.

(** [esprima.parse('')] *)
Definition emptyProgram : program := build_program [].

(** <<
    function concatPrograms(programs) {
      var concat = function(p0, p1) {
        return build.program(p0.body.concat(p1.body));
      };
      var emptyProgram = esprima.parse('');
      return programs.reduce(concat, emptyProgram);
    }
    >> *)
Definition concat (p0 p1 : program) : program :=
  build_program (body p0 ++ body p1).

Definition concatPrograms (programs : list program) : program :=
  foldl concat emptyProgram programs.

(** <<
    function copyAst(ast) {
      var ret = _.isArray(ast) ? [] : {};
      _.each(ast, function(val, key) {
        ret[key] = _.isObject(val) ? copyAst(val) : val;
      });
      return ret;
    }
    >>
    [compile] calls it on Program nodes, and it calls itself on what
    [_.isObject] accepts.  A host object has no own enumerable property for
    [_.each] to visit: its copy is the empty object (as is, here, that of a
    primitive, on which [copyAst] is never called).  The keys of an object
    are visited and set as ordinary keys are (see [ordinaryKeys]); an object
    with a key [length] or [__proto__] is not one this definition speaks
    for. *)
Fixpoint copyAst (ast : tree) : tree :=
  let copyVal (val : tree) : tree :=
    if isObject val then copyAst val else val in
  match ast with
  | Arr elts => Arr (map copyVal elts)
  | Obj props => Obj (map (fun kv => (kv.1, copyVal kv.2)) props)
  | Prim _ | Host _ => Obj []
  end.

(** A Program node seen as the object [copyAst] walks, and back. *)
Definition program_obj (p : program) : tree :=
  Obj [("type", Prim (PStr "Program")); ("body", Arr (body p))].

Definition obj_program (t : tree) : program :=
  match t with
  | Obj props =>
      match (list_to_map props : gmap string tree) !! "body" with
      | Some (Arr b) => build_program b
      | _ => emptyProgram
      end
  | _ => emptyProgram
  end.

Definition copyProgram (p : program) : program :=
  obj_program (copyAst (program_obj p)).

(** ** Typed pipelines *)

(** The array handed to [util.pipeline]: functions in a row, each taking
    what the one before returns; they need not share a type. *)
Inductive stages : Type -> Type -> Type :=
| Done {A} : stages A A
| Stage {A B C} (f : A -> B) (rest : stages B C) : stages A C.

(** Modelled from the spec: [util.pipeline] ([src/util.js] is not among the
    sources).  "Data flows strictly forward": the stages run first to last,
    each consuming what the previous one produced; [parsePackageCode] relies
    on that order ([packagesToPairs], then [addHeaderMacrosToEachPair], then
    [parseAllPairs]). *)
Fixpoint pipeline {A B} (fns : stages A B) : A -> B :=
  match fns in stages A B return A -> B with
  | Done => fun x => x
  | Stage f rest => fun x => pipeline rest (f x)
  end.

Fixpoint stages_of_list {A} (fns : list (A -> A)) : stages A A :=
  match fns with
  | [] => Done
  | f :: rest => Stage f (stages_of_list rest)
  end.

(** [_.identity] *)
Definition identity {A} (x : A) : A := x.

(** ** The collaborators of the driver *)

(** What [main.js] requires from the rest of the repository and from its
    libraries.  Every field is a function the driver calls and never looks
    into. *)
Class Externals := {
  (** a macro module loaded by sweet.js *)
  macroModule : Type;
  (** a source map produced by escodegen *)
  sourceMap : Type;
  (** [sweet.compile(code, {readableNames: true, ast: true, modules: macros})] *)
  sweet_compile : string -> list macroModule -> program;
  (** [sweet.loadModule(code)] *)
  sweet_loadModule : string -> macroModule;
  (** the three files [headerPackage] reads *)
  header_wppl : string;
  headerMacros_sjs : string;
  ad_macros : string;
  (** [transforms/addFilename] *)
  addFilename : program -> string -> program;
  (** [syntax.thunkify] and the transforms of [transforms/*.js] *)
  thunkify : program -> program;
  naming : program -> program;
  cps : program -> program;
  store : program -> program;
  optimize : program -> program;
  varargs : program -> program;
  trampoline : program -> program;
  freevars : program -> program;
  (** [transforms/caching]: [transform], [transformRequired] and
      [hasNoCachingDirective] *)
  caching_transform : program -> program;
  caching_transformRequired : program -> bool;
  caching_hasNoCachingDirective : program -> bool;
  (** [escodegen.generate(ast, {sourceMap: filename, sourceMapWithCode: true,
      sourceContent: code})]: the generated code and its map *)
  escodegen_generate : program -> string -> string -> string * sourceMap
}.

Module Compiler.
Section Compiler.
Context `{E : Externals}.

(** *** Packages *)

(** [Package :: { wppl: [String], macros: [...] }], before ([string]) and
    after ([macroModule]) the macro modules are loaded. *)
Record package (M : Type) := Package { wppl : list string; macros : list M }.
Arguments Package {M}.
Arguments wppl {M}.
Arguments macros {M}.

(** [Pair :: { code: String, macros: [LoadedMacroModule] }] *)
Record pair := Pair { pair_code : string; pair_macros : list macroModule }.

(** What [parsePackageCode] returns, and what [options.extra] holds. *)
Record extra := Extra { asts : list program; extra_macros : list macroModule }.

Definition parse (code : string) (ms : list macroModule) : program :=
  sweet_compile code ms.

Definition parseAllPairs (pairs : list pair) : list program :=
  map (fun p => parse (pair_code p) (pair_macros p)) pairs.

Definition loadMacros (pkg : package string) : package macroModule :=
  Package (wppl pkg) (map sweet_loadModule (macros pkg)).

Definition headerPackage : package string :=
  Package [header_wppl] [headerMacros_sjs; ad_macros].

Definition packagesToPairs (packages : list (package macroModule)) : list pair :=
  mjoin (map (fun pkg => map (fun w => Pair w (macros pkg)) (wppl pkg)) packages).

(** [assert.ok(pairs.length >= 1 && pairs[0].macros.length === 2)]: [None]
    when the assertion fails. *)
Definition addHeaderMacrosToEachPair (pairs : list pair) : option (list pair) :=
  match pairs with
  | Pair _ [headerMacros; _] :: _ =>
      Some (map (fun p => Pair (pair_code p) (pair_macros p ++ [headerMacros])) pairs)
  | _ => None
  end.

(** <<
    var allPackages = [headerPackage()].concat(packages).map(loadMacros);
    var macros = _.chain(allPackages).pluck('macros').flatten().value();
    var asts = util.pipeline([
      packagesToPairs, addHeaderMacrosToEachPair, parseAllPairs
    ])(allPackages);
    return { asts: asts, macros: macros };
    >> *)
Definition parsePackageCode (packages : list (package string)) : option extra :=
  let allPackages := map loadMacros (headerPackage :: packages) in
  let ms := mjoin (map macros allPackages) in
  pairs ← addHeaderMacrosToEachPair (packagesToPairs allPackages);
  Some (Extra (parseAllPairs pairs) ms).

(** *** Caching *)

(** <<
    function applyCaching(asts) {
      return asts.map(function(ast) {
        return caching.hasNoCachingDirective(ast) ? ast : caching.transform(ast);
      });
    }
    >> *)
Definition applyCaching (asts : list program) : list program :=
  map (fun ast =>
         if caching_hasNoCachingDirective ast then ast else caching_transform ast)
      asts.

(** *** compile *)

Record options := Options {
  verbose : option bool;
  generateCode : option bool;
  opt_extra : option extra;
  transforms : option (list (program -> program))
}.

(** [options || {}] *)
Definition noOptions : options := Options None None None None.

(** The list [compile] falls back on when [options.transforms] is not given. *)
Definition defaultTransforms : list (program -> program) :=
  [thunkify; naming; cps; store; optimize; varargs; trampoline].

(** What [compile] returns: generated code with its source map, or the
    transformed AST when [options.generateCode] is false. *)
Inductive compiled :=
| CodeAndMap (code : string) (map : sourceMap)
| TransformedAst (ast : program).

(** [var asts = extra.asts.map(copyAst).concat(programAst)] *)
Definition sourceAsts (filename code : string) (ex : extra) : list program :=
  let programAst := parse code (extra_macros ex) in
  let programAst := addFilename programAst filename in
  map copyProgram (asts ex) ++ [programAst].

(** [var doCaching = _.any(asts, caching.transformRequired)] *)
Definition doCaching (asts : list program) : bool :=
  existsb caching_transformRequired asts.

(** The first stage of the pipeline of [_compile]:
    [doCaching ? applyCaching : _.identity]. *)
Definition cachingStage (asts : list program) : list program -> list program :=
  if doCaching asts then applyCaching else identity.

(** The pipeline of [_compile], run on [asts]. *)
Definition transformAsts (ts : list (program -> program))
    (asts : list program) : program :=
  pipeline
    (Stage (cachingStage asts)
    (Stage concatPrograms
    (Stage (if doCaching asts then freevars else identity)
    (Stage (pipeline (stages_of_list ts))
     Done))))
    asts.

(** [var extra = options.extra || parsePackageCode([], options.verbose)] *)
Definition extraOf (o : options) : option extra :=
  match opt_extra o with
  | Some ex => Some ex
  | None => parsePackageCode []
  end.

(** <<
    function compile(filename, code, options) {
      var options = util.mergeDefaults(options, { verbose: false, generateCode: true });
      var extra = options.extra || parsePackageCode([], options.verbose);
      var transforms = options.transforms || [
        thunkify, naming, cps, store, optimize, varargs, trampoline
      ];
      function _compile() {
        var programAst = parse(code, extra.macros);
        programAst = addFilename(programAst, filename);
        var asts = extra.asts.map(copyAst).concat(programAst);
        var doCaching = _.any(asts, caching.transformRequired);
        var transformedAst = util.pipeline([
          doCaching ? applyCaching : _.identity,
          concatPrograms,
          doCaching ? freevars : _.identity,
          util.pipeline(transforms)
        ])(asts);
        var codeAndMap = options.generateCode ?
          escodegen.generate(transformedAst, {...}) : transformedAst
        return codeAndMap
      };
      return util.timeif(options.verbose, 'compile', _compile);
    }
    >>
    [util.timeif] runs [_compile] and hands back its result; the timing and
    the message of the verbose mode go to the console and are left out.
    [None] is the failed assertion of [addHeaderMacrosToEachPair]. *)
Definition compile (filename code : string) (o : options) : option compiled :=
  let generate := default true (generateCode o) in
  ex ← extraOf o;
  let ts := default defaultTransforms (transforms o) in
  let transformedAst := transformAsts ts (sourceAsts filename code ex) in
  Some (if generate
        then let cm := escodegen_generate transformedAst filename code in
             CodeAndMap cm.1 cm.2
        else TransformedAst transformedAst).

(** The pipeline in the order section 2 of the specification lists its
    components: naming, CPS, store, varargs, optimize, trampoline, and the
    caching pass (with its free-variable analysis) as pass 7.  It is compared
    with [transformAsts] below. *)
Definition transformAsts_spec (asts : list program) : program :=
  let ast := trampoline (optimize (varargs (store (cps (naming
               (concatPrograms asts)))))) in
  if doCaching asts then caching_transform (freevars ast) else ast.

(** The caching stage as section 4.7 of the specification words it: "applied
    only to compilation units that opt in", a unit opting in when it is one
    that requires the transform. *)
Definition cachingStage_spec (asts : list program) : list program :=
  map (fun ast => if caching_transformRequired ast then caching_transform ast else ast)
      asts.

End Compiler.

Arguments Package {M}.
Arguments wppl {M}.
Arguments macros {M}.

End Compiler.

(** ** Running compiled code *)

Module Runtime.

(** What a JavaScript expression of the driver evaluates to: a datum, or a
    function of no argument (a thunk), which runs in the state of the host
    [W] (globals, console, the coroutine of the inference layer) and either
    returns a value or throws one. *)
Inductive value (W : Type) :=
| VData (t : tree)
| VFun (f : W -> outcome W)
with outcome (W : Type) :=
| Return (v : value W) (w : W)
| Throw (exception : value W) (w : W).
Arguments VData {W}.
Arguments VFun {W}.
Arguments Return {W}.
Arguments Throw {W}.

Definition undefined {W} : value W := VData (Prim PUndefined).
Definition TypeError {W} : value W := VData (Host "TypeError").
Definition AssertionError {W} : value W := VData (Host "AssertionError").

(** The store handed to compiled code; [{}] is the empty one. *)
Abbreviation jsStore := (gmap string tree).

(** A compiled program: [function(s, k, a) { ... }], with [K] the type of
    continuations. *)
Definition compiledFn (W K : Type) : Type :=
  jsStore -> K -> string -> W -> outcome W.

(** What [eval.call(global, code)] gives: a function of the compiled
    calling convention, something that cannot be called, or an exception. *)
Inductive evaluated (W K : Type) :=
| ECompiled (f : compiledFn W K)
| ENotCallable
| EThrown (exception : value W).
Arguments ECompiled {W K}.
Arguments ENotCallable {W K}.
Arguments EThrown {W K}.

(** The host the driver runs in. *)
Class HostEnv `{E : Externals} := {
  (** the state of the host: globals, console, the inference coroutine *)
  world : Type;
  (** the continuations handed to compiled code *)
  kont : Type;
  (** [eval.call(global, code)] on a string *)
  evalGlobal : string -> world -> evaluated world kont * world;
  (** [require('./friendlyStackTrace')] *)
  printFriendlyStackTrace : value world -> option sourceMap -> world -> world
}.

Section Trampoline.
Context {W : Type}.

(** JavaScript's ToBoolean. *)
Definition truthy (v : value W) : bool :=
  match v with
  | VData (Prim PUndefined) | VData (Prim PNull) | VData (Prim PNaN) => false
  | VData (Prim (PBool b)) => b
  | VData (Prim (PNum z)) => negb (z =? 0)%Z
  | VData (Prim (PStr s)) => negb (String.eqb s "")
  | VData (Arr _) | VData (Obj _) | VData (Host _) => true
  | VFun _ => true
  end.

(** [t()] *)
Definition call (t : value W) (w : W) : outcome W :=
  match t with
  | VFun f => f w
  | VData _ => Throw TypeError w
  end.

(** <<
    function runTrampoline(t) {
      while (t) {
        t = t();
      }
    }
    >>
    One unit of fuel per turn of the loop; [None] when the fuel runs out
    before the loop ends. *)
Fixpoint runTrampoline (fuel : nat) (t : value W) (w : W) : option (outcome W) :=
  if truthy t then
    match fuel with
    | 0 => None
    | S fuel =>
        match call t w with
        | Return t' w' => runTrampoline fuel t' w'
        | Throw exception w' => Some (Throw exception w')
        end
    end
  else Some (Return undefined w).

(** [bounces n t w t' w']: from [t] in state [w], [n] successive calls
    [t = t()] return normally and leave [t'] in state [w']. *)
Inductive bounces : nat -> value W -> W -> value W -> W -> Prop :=
| bounces_O t w : bounces 0 t w t w
| bounces_S n f w t1 w1 t' w' :
    f w = Return t1 w1 ->
    bounces n t1 w1 t' w' ->
    bounces (S n) (VFun f) w t' w'.

(** The driver loop as section 4.8 of the specification words it: call the
    result while it is a thunk, and return the first result that is not. *)
Fixpoint runTrampoline_spec (fuel : nat) (t : value W) (w : W) : option (outcome W) :=
  match t with
  | VFun f =>
      match fuel with
      | 0 => None
      | S fuel =>
          match f w with
          | Return t' w' => runTrampoline_spec fuel t' w'
          | Throw exception w' => Some (Throw exception w')
          end
      end
  | VData _ => Some (Return t w)
  end.

End Trampoline.

Section Run.
Context `{H : HostEnv}.
Import Compiler.

(** [codeAndMap.code] and [codeAndMap.map]; both are undefined on an AST. *)
Definition code_of (c : compiled) : option string :=
  match c with CodeAndMap code _ => Some code | TransformedAst _ => None end.

Definition map_of (c : compiled) : option sourceMap :=
  match c with CodeAndMap _ map => Some map | TransformedAst _ => None end.

(** [eval.call(global, x)]: [eval] hands back what is not a string. *)
Definition evalCall (x : option string) (w : world) : evaluated world kont * world :=
  match x with
  | Some code => evalGlobal code w
  | None => (ENotCallable, w)
  end.

(** The body of the [try] block of [run]:
    [eval.call(global, codeAndMap.code)({}, k, '')]. *)
Definition runCompiled (c : compiled) (k : kont) (w : world) : outcome world :=
  match evalCall (code_of c) w with
  | (ECompiled f, w1) => f ∅ k "" w1
  | (ENotCallable, w1) => Throw TypeError w1
  | (EThrown exception, w1) => Throw exception w1
  end.

(** <<
    function run(filename, code, k, options) {
      var options = options || {};
      var codeAndMap = compile(filename, code, options);
      util.timeif(options.verbose, 'run', function() {
        try {
          eval.call(global, codeAndMap.code)({}, k, '');
        } catch (exception) {
          printFriendlyStackTrace(exception, codeAndMap.map)
        }
      });
    }
    >>
    There is no [return]: the call of [run] evaluates to [undefined]. *)
Definition run (filename code : string) (k : kont) (o : option options) (w : world)
  : outcome world :=
  let o := default noOptions o in
  match compile filename code o with
  | None => Throw AssertionError w
  | Some codeAndMap =>
      match runCompiled codeAndMap k w with
      | Return _ w' => Return undefined w'
      | Throw exception w' =>
          Return undefined (printFriendlyStackTrace exception (map_of codeAndMap) w')
      end
  end.

(** [run] as section 6 of the specification words it:
    [run(compiledFn, initialStore, initialContinuation) -> value], the value
    being what the compiled function returns. *)
Definition run_spec (filename code : string) (k : kont) (o : option options) (w : world)
  : outcome world :=
  let o := default noOptions o in
  match compile filename code o with
  | None => Throw AssertionError w
  | Some codeAndMap =>
      match runCompiled codeAndMap k w with
      | Return v w' => Return v w'
      | Throw exception w' =>
          Return undefined (printFriendlyStackTrace exception (map_of codeAndMap) w')
      end
  end.

End Run.
End Runtime.

(** ** Optimising the parameters of a guide *)

Module Optimize.

(** References to JavaScript objects. *)
Abbreviation loc := positive.

(** A parameter structure ([paramStruct]): an object from parameter names to
    arrays, in insertion order.  [struct loc] holds references to tensors (the
    parameters themselves), [struct tensor] holds tensors (a gradient). *)
Definition struct (A : Type) : Type := list (string * list A).

(** The objects of the heap: parameter objects and the tensors they hold. *)
Inductive cell (tensor : Type) :=
| CParams (entries : struct loc)
| CTensor (t : tensor).
Arguments CParams {tensor}.
Arguments CTensor {tensor}.

(** The state [Optimize] runs in: the heap, the console, the table
    [issuedGradWarning] of the module, and whatever the estimator and the
    optimiser keep to themselves (random numbers, moments, the guide). *)
Record state (tensor inner : Type) := State {
  heap : gmap loc (cell tensor);
  console : list string;
  issuedGradWarning : gset string;
  collaborators : inner
}.
Arguments State {tensor inner}.
Arguments heap {tensor inner}.
Arguments console {tensor inner}.
Arguments issuedGradWarning {tensor inner}.
Arguments collaborators {tensor inner}.

(** The heap and what is said of it. *)
Section Heap.
Context {T I : Type}.

Definition set_heap (f : gmap loc (cell T) -> gmap loc (cell T)) (σ : state T I)
  : state T I :=
  State (f (heap σ)) (console σ) (issuedGradWarning σ) (collaborators σ).

(** A new object. *)
Definition alloc (c : cell T) (σ : state T I) : loc * state T I :=
  let l := fresh (dom (heap σ)) in (l, set_heap <[l := c]> σ).



(** The parameters as data: under each name, the tensors of its array. *)
Definition readTensor (h : gmap loc (cell T)) (l : loc) : option T :=
  match h !! l with
  | Some (CTensor t) => Some t
  | _ => None
  end.

Definition readEntry (h : gmap loc (cell T)) (entry : string * list loc)
  : option (string * list T) :=
  ts ← mapM (readTensor h) entry.2; Some (entry.1, ts).

Definition readParams (h : gmap loc (cell T)) (p : loc) : option (struct T) :=
  match h !! p with
  | Some (CParams es) => mapM (readEntry h) es
  | _ => None
  end.




End Heap.

(** What [optimize.js] requires and [src/] does not have: tensors ([adnn]),
    [paramStruct], the three estimators ([./elbo], [./elbo2], [./eubo]), the
    optimisation methods ([adnn/opt]) and the loop of [util].  Nothing is
    known of them but how [Optimize] calls them.
    An estimator is given the program, the store and the address, then the
    parameter object and the step; it is taken to return, and to call its
    callback once, with a gradient and an objective.  [optMethods name] is
    the optimiser that
    [optMethods[name](opts)] makes, [None] when there is no method of that
    name to call; an optimiser is given the gradient, the parameter object and
    the step, and updates the parameters in place.
    [paramStruct_deepCopy] is [paramStruct.deepCopy], [None] when it throws.
    [cpsLoopTurns n] are the values of [i] for which [util.cpsLoop(n, ..)]
    calls its body, in order. *)
Class Collaborators := {
  tensor : Type;
  num : Type;
  inner : Type;
  wppl : Type;
  wpplStore : Type;
  (** [tensor.anyreduce()] *)
  anyreduce : tensor -> bool;
  (** [_.all(tensor.data, _.isFinite)] *)
  allFiniteData : tensor -> bool;
  (** the decimal string of a number *)
  showNum : num -> string;
  (** a number taken as a condition: [0] and [NaN] count as false *)
  numTruthy : num -> bool;
  paramStruct_norm : struct tensor -> num;
  paramStruct_clip : struct tensor -> num -> num -> struct tensor;
  paramStruct_deepCopy :
    loc -> state tensor inner -> option (loc * state tensor inner);
  ELBO : wppl -> wpplStore -> string -> loc -> nat ->
         state tensor inner -> (struct tensor * num) * state tensor inner;
  ELBO2 : wppl -> wpplStore -> string -> loc -> nat ->
          state tensor inner -> (struct tensor * num) * state tensor inner;
  EUBO : wppl -> wpplStore -> string -> loc -> nat ->
         state tensor inner -> (struct tensor * num) * state tensor inner;
  optMethods : string ->
               option (struct tensor -> loc -> nat ->
                       state tensor inner -> state tensor inner);
  cpsLoopTurns : nat -> list nat
}.

Section Optimize.
Context `{C : Collaborators}.

Abbreviation st := (state tensor inner).

(** <<
    function logGradWarning(name, i, problem) {
      var key = name + i + problem;
      if (!_.has(issuedGradWarning, key)) {
        console.warn('Gradient for param ' + name + ':' + i + ' is ' + problem + '.');
        issuedGradWarning[key] = true;
      }
    }
    >> *)
Definition logGradWarning (name : string) (i : nat) (problem : string) (σ : st) : st :=
  let key := name +:+ pretty i +:+ problem in
  if decide (key ∈ issuedGradWarning σ) then σ
  else State (heap σ)
             (console σ ++ ["Gradient for param " +:+ name +:+ ":" +:+ pretty i
                            +:+ " is " +:+ problem +:+ "."])
             ({[key]} ∪ issuedGradWarning σ)
             (collaborators σ).

Definition allZero (t : tensor) : bool := negb (anyreduce t).
Definition allFinite (t : tensor) : bool := allFiniteData t.

(** <<
    function checkGradients(gradObj) {
      _.each(gradObj, function(grads, name) {
        _.each(grads, function(g, i) {
          if (allZero(g)) { logGradWarning(name, i, 'zero'); }
          if (!allFinite(g)) { logGradWarning(name, i, 'not finite'); }
        });
      });
    }
    >> *)
Definition checkGradient (name : string) (i : nat) (g : tensor) (σ : st) : st :=
  let σ := if allZero g then logGradWarning name i "zero" σ else σ in
  if allFinite g then σ else logGradWarning name i "not finite" σ.

Fixpoint checkGrads (name : string) (i : nat) (grads : list tensor) (σ : st) : st :=
  match grads with
  | [] => σ
  | g :: grads => checkGrads name (S i) grads (checkGradient name i g σ)
  end.

Definition checkGradients (gradObj : struct tensor) (σ : st) : st :=
  foldl (fun σ entry => checkGrads entry.1 0 entry.2 σ) σ gradObj.

(** The options [Optimize] reads.  [clip] is [None] for [false] and
    [Some threshold] for a number; [optMethod] and [estimator] are names.
    The throttled reports ([showProgress], [logProgress],
    [checkpointParams]) write to the console and to files what they read from
    [paramObj]; they are left out. *)
Record options (R : Type) := Options {
  params : option loc;
  optMethod : option string;
  estimator : option string;
  steps : option nat;
  clip : option num;
  showGradNorm : option bool;
  checkGrad : option bool;
  onFinish : option (wpplStore -> (wpplStore -> st -> R) -> string -> list num -> st -> R)
}.
Arguments Options {R}.
Arguments params {R}.
Arguments optMethod {R}.
Arguments estimator {R}.
Arguments steps {R}.
Arguments clip {R}.
Arguments showGradNorm {R}.
Arguments checkGrad {R}.
Arguments onFinish {R}.

(** What a call comes to: the value it returns, or an exception, with the
    state it leaves. *)
Inductive answer (R : Type) :=
| Returned (r : R)
| Threw (σ : st).
Arguments Returned {R}.
Arguments Threw {R}.

(** <<
    var estimators = {
      ELBO: require('./elbo')(env),
      ELBO2: require('./elbo2')(env),
      EUBO: require('./eubo')(env)
    };
    >>
    [estimators[name]], [None] for [undefined] (the names of what every
    object inherits are left aside). *)
Definition estimators (name : string)
  : option (wppl -> wpplStore -> string -> loc -> nat ->
            st -> (struct tensor * num) * st) :=
  if decide (name = "ELBO") then Some ELBO
  else if decide (name = "ELBO2") then Some ELBO2
  else if decide (name = "EUBO") then Some EUBO
  else None.

(** [_.partial(estimators[name], wpplFn, s, a, opts, state)]: nothing is
    called yet, whatever [estimators[name]] is. *)
Definition partial (f : option (wppl -> wpplStore -> string -> loc -> nat ->
                                st -> (struct tensor * num) * st))
    (wpplFn : wppl) (s : wpplStore) (a : string)
  : option (loc -> nat -> st -> (struct tensor * num) * st) :=
  match f with
  | Some estimate => Some (estimate wpplFn s a)
  | None => None
  end.

(** [name = (name === 'gd') ? 'sgd' : name] *)
Definition methodName (name : string) : string :=
  if decide (name = "gd") then "sgd" else name.

(** [options.params] once [util.mergeDefaults] has put [params: {}] where
    there was none; the object [{}] is made at each call. *)
Definition givenParams {R} (o : options R) (σ : st) : loc * st :=
  let '(empty, σ) := alloc (CParams []) σ in
  (default empty (params o), σ).

(** [util.cpsLoop(n, body, k)] ([src/util.js] is not among the sources): the
    body is called for the turns [cpsLoopTurns n], each turn started by the
    [next] of the turn before, and the continuation is called by the [next]
    of the last.  The array [history] of [Optimize] is threaded with the
    state. *)
Definition cpsLoop {R} (n : nat)
    (body : nat -> (list num -> st -> R) -> list num -> st -> R)
    (k : list num -> st -> R) : list num -> st -> R :=
  foldr body k (cpsLoopTurns n).

(** [options.clip] where it counts as true: the threshold to clip at. *)
Definition clipping {R} (o : options R) : option num :=
  match clip o with
  | Some threshold => if numTruthy threshold then Some threshold else None
  | None => None
  end.

(** What the callback handed to the estimator does with the gradient up to
    the call of the optimiser:
    <<
    if (options.checkGradients) { checkGradients(gradObj); }
    if (options.clip || options.showGradNorm) {
      var norm = paramStruct.norm(gradObj);
      if (options.showGradNorm) { console.log('L2 norm of gradient: ' + norm); }
      if (options.clip) { paramStruct.clip(gradObj, options.clip, norm); }
    }
    >>
    [paramStruct.clip] works on the gradient in place. *)
Definition inspect {R} (o : options R) (gradObj : struct tensor) (σ : st)
  : struct tensor * st :=
  let σ := if default true (checkGrad o) then checkGradients gradObj σ else σ in
  if bool_decide (is_Some (clipping o)) || default false (showGradNorm o) then
    let norm := paramStruct_norm gradObj in
    let σ := if default false (showGradNorm o)
             then State (heap σ)
                        (console σ ++ ["L2 norm of gradient: " +:+ showNum norm])
                        (issuedGradWarning σ) (collaborators σ)
             else σ in
    match clipping o with
    | Some threshold => (paramStruct_clip gradObj threshold norm, σ)
    | None => (gradObj, σ)
    end
  else (gradObj, σ).

(** The body of the main loop:
    <<
    function(i, next) {
      return estimator(paramObj, i, function(gradObj, objective) {
        ...
        history.push(objective);
        optimizer(gradObj, paramObj, i);
        return next();
      });
    }
    >>
    [estimator] and [optimizer] are the two made before the loop; calling an
    [estimator] that was made of [undefined] throws. *)
Definition loopBody {R A} (o : options R)
    (estimator : option (loc -> nat -> st -> (struct tensor * num) * st))
    (optimizer : struct tensor -> loc -> nat -> st -> st)
    (paramObj : loc) (i : nat) (next : list num -> st -> answer A)
    (history : list num) (σ : st) : answer A :=
  match estimator with
  | None => Threw σ
  | Some estimate =>
      let '((gradObj, objective), σ) := estimate paramObj i σ in
      let '(gradObj, σ) := inspect o gradObj σ in
      let history := history ++ [objective] in
      let σ := optimizer gradObj paramObj i σ in
      next history σ
  end.

(** The continuation of the main loop:
    <<
    function() {
      return options.onFinish(s, function(s) {
        ...
        return k(s, paramObj);
      }, a, {history: history});
    }
    >>
    with [options.onFinish] by default [function(s, k, a) { return k(s); }]. *)
Definition finish {R} (o : options R) (s : wpplStore) (k : wpplStore -> loc -> st -> R)
    (a : string) (paramObj : loc) (history : list num) (σ : st) : R :=
  match onFinish o with
  | None => k s paramObj σ
  | Some f => f s (fun s σ => k s paramObj σ) a history σ
  end.

(** [Optimize(s, k, a, wpplFn, options)]:
    <<
    options = util.mergeDefaults(options, {params: {}, optMethod: 'adam',
                                           estimator: 'ELBO', steps: 1, ..});
    var estimator = .. _.partial(estimators[name], wpplFn, s, a, opts, state) ..;
    var optimizer = .. optMethods[name](opts) ..;
    var paramObj = paramStruct.deepCopy(options.params);
    var history = [];
    return util.cpsLoop(options.steps, <body>, <continuation>);
    >>
    The optimiser is made before the parameters are copied, and both before
    the first turn. *)
Definition Optimize {R} (s : wpplStore) (k : wpplStore -> loc -> st -> R) (a : string)
    (wpplFn : wppl) (o : options R) (σ : st) : answer R :=
  let '(given, σ) := givenParams o σ in
  let estimator := partial (estimators (default "ELBO" (estimator o))) wpplFn s a in
  match optMethods (methodName (default "adam" (optMethod o))) with
  | None => Threw σ
  | Some optimizer =>
      match paramStruct_deepCopy given σ with
      | None => Threw σ
      | Some (paramObj, σ) =>
          cpsLoop (default 1 (steps o))
                  (loopBody o estimator optimizer paramObj)
                  (fun history σ => Returned (finish o s k a paramObj history σ))
                  [] σ
      end
  end.


(** From [σ] to [σ'] nothing has happened but warnings: the heap and the
    collaborators are as they were, the console has some more lines, and the
    table [issuedGradWarning] has as many more keys. *)
Definition onlyWarns (σ σ' : st) : Prop :=
  heap σ' = heap σ ∧ collaborators σ' = collaborators σ ∧
  ∃ lines, console σ' = console σ ++ lines ∧
           issuedGradWarning σ ⊆ issuedGradWarning σ' ∧
           size (issuedGradWarning σ') = size (issuedGradWarning σ) + length lines.

End Optimize.

Abbreviation st := (state tensor inner).

Arguments Options {C R}.
Arguments params {C R}.
Arguments optMethod {C R}.
Arguments estimator {C R}.
Arguments steps {C R}.
Arguments clip {C R}.
Arguments showGradNorm {C R}.
Arguments checkGrad {C R}.
Arguments onFinish {C R}.
Arguments Returned {C R}.
Arguments Threw {C R}.

End Optimize.

(** ** ASTs as objects of a heap *)

(** [copyAst] once more, on objects that are referred to: what is a new
    object and what is the old one can be told apart. *)
Module AstHeap.

Abbreviation loc := positive.

(** [copyAst] on trees, as above, to compare with. *)
Definition copyTree (t : tree) : tree := copyAst t.

(** What an array or an object holds under a key: a primitive or a reference
    to an object. *)
Inductive val :=
| VPrim (p : prim)
| VRef (l : loc).

(** Arrays, plain objects (own enumerable properties in insertion order) and
    host objects without own enumerable properties. *)
Inductive obj :=
| OArr (elts : list val)
| OObj (props : list (string * val))
| OHost (tag : string).

Abbreviation heap := (gmap loc obj).

(** A new object. *)
Definition alloc (o : obj) (h : heap) : loc * heap :=
  let l := fresh (dom h) in (l, <[l := o]> h).

(** The values [_.each(ast, ..)] visits, in order. *)
Definition entries (o : obj) : list val :=
  match o with
  | OArr elts => elts
  | OObj props => map snd props
  | OHost _ => []
  end.

(** [var ret = _.isArray(ast) ? [] : {}] *)
Definition emptyLike (o : obj) : obj :=
  match o with
  | OArr _ => OArr []
  | OObj _ | OHost _ => OObj []
  end.

(** [ret] once [ret[key]] has been set for every key of [ast], to the values
    [vals] in the order of the keys. *)
Definition filled (o : obj) (vals : list val) : obj :=
  match o with
  | OArr _ => OArr vals
  | OObj props => OObj (zip (map fst props) vals)
  | OHost _ => OObj []
  end.

(** [_.isObject(val) ? copyAst(val) : val], value after value; the heap is
    threaded through the copies. *)
Fixpoint copyVals (copy : loc -> heap -> option (loc * heap)) (vals : list val)
    (h : heap) : option (list val * heap) :=
  match vals with
  | [] => Some ([], h)
  | VPrim p :: vals =>
      '(vals', h') ← copyVals copy vals h;
      Some (VPrim p :: vals', h')
  | VRef l :: vals =>
      '(l', h1) ← copy l h;
      '(vals', h2) ← copyVals copy vals h1;
      Some (VRef l' :: vals', h2)
  end.

(** <<
    function copyAst(ast) {
      var ret = _.isArray(ast) ? [] : {};
      _.each(ast, function(val, key) {
        ret[key] = _.isObject(val) ? copyAst(val) : val;
      });
      return ret;
    }
    >>
    One unit of fuel for each level of calls; [None] when the fuel runs out
    (or a reference leads nowhere, which no JavaScript reference does).  Only
    [ret] is written to, and nothing reads it before it is returned: its
    properties are stored at once.  As on trees, the keys of an object are
    visited and set as ordinary keys are. *)
Fixpoint copyAst (fuel : nat) (ast : loc) (h : heap) : option (loc * heap) :=
  match fuel with
  | 0 => None
  | S fuel =>
      o ← h !! ast;
      let '(ret, h1) := alloc (emptyLike o) h in
      '(vals, h2) ← copyVals (copyAst fuel) (entries o) h1;
      Some (ret, <[ret := filled o vals]> h2)
  end.

(** The tree an object stands for, [fuel] levels deep at most. *)
Definition readVal (rd : loc -> option tree) (v : val) : option tree :=
  match v with
  | VPrim p => Some (Prim p)
  | VRef l => rd l
  end.

Fixpoint read (fuel : nat) (h : heap) (l : loc) : option tree :=
  match fuel with
  | 0 => None
  | S fuel =>
      o ← h !! l;
      ts ← mapM (readVal (read fuel h)) (entries o);
      Some match o with
           | OArr _ => Arr ts
           | OObj props => Obj (zip (map fst props) ts)
           | OHost tag => Host tag
           end
  end.

(** [x] holds a reference to [y]. *)
Definition refers (h : heap) (x y : loc) : Prop :=
  ∃ o, h !! x = Some o ∧ VRef y ∈ entries o.

(** A plain object with a key named [length]: [_.each] may take it for an
    array and visit its indices instead of its keys. *)
Definition hasLengthKey (o : obj) : bool :=
  match o with
  | OObj props => existsb (fun kv => String.eqb kv.1 "length") props
  | OArr _ | OHost _ => false
  end.

(** [copyAst] at [x] calls itself at [y]: [x] is an array or an object
    without a key [length], and holds a reference to [y]. *)
Definition visits (h : heap) (x y : loc) : Prop :=
  ∃ o, h !! x = Some o ∧ hasLengthKey o = false ∧ VRef y ∈ entries o.

(** From [h] to [h'] objects have been added: those of [h] are as they were,
    and the new ones hold references to new ones only. *)
Definition grown (h h' : heap) : Prop :=
  (∀ x, x ∈ dom h → h' !! x = h !! x) ∧
  (∀ x y, x ∉ dom h → refers h' x y → y ∉ dom h).

End AstHeap.

(** ** Concrete collaborators *)

Module Examples.

Definition isStr (s : string) (t : tree) : bool :=
  match t with
  | Prim (PStr s') => String.eqb s s'
  | _ => false
  end.

(** A pass that leaves its name at the end of the program. *)
Definition mark (name : string) (p : program) : program :=
  build_program (body p ++ [Prim (PStr name)]).

(** Collaborators that record the order in which the driver calls them.  The
    parser turns the code into one statement, the string [code]; a unit
    requires caching when it holds the statement ['IncrementalMH'] and opts
    out when its first statement is ['no caching']. *)
Definition tracing : Externals := {|
  macroModule := string;
  sourceMap := string;
  sweet_compile code _ := build_program [Prim (PStr code)];
  sweet_loadModule code := code;
  header_wppl := "header";
  headerMacros_sjs := "headerMacros";
  ad_macros := "adMacros";
  addFilename p _ := p;
  thunkify := mark "thunkify";
  naming := mark "naming";
  cps := mark "cps";
  store := mark "store";
  optimize := mark "optimize";
  varargs := mark "varargs";
  trampoline := mark "trampoline";
  freevars := mark "freevars";
  caching_transform := mark "caching";
  caching_transformRequired p := existsb (isStr "IncrementalMH") (body p);
  caching_hasNoCachingDirective p :=
    match body p with
    | t :: _ => isStr "no caching" t
    | [] => false
    end;
  escodegen_generate p filename _ := (filename, filename +:+ ".map")
|}.

Definition strs (l : list string) : list tree := map (fun s => Prim (PStr s)) l.

(** A host for [tracing]: the code generated for [filename] is [filename]
    itself.  ["answer.wppl"] evaluates to a compiled function that notes how
    it is called and returns 42, ["crash.wppl"] to one that throws, anything
    else to something that cannot be called.  The state of the host is what
    has been written so far; a continuation is known by its name. *)
Definition note (s : gmap string tree) (k a : string) : string :=
  "called with store of size " +:+ pretty (size s) +:+ ", continuation " +:+ k
  +:+ ", address '" +:+ a +:+ "'".

Definition host : @Runtime.HostEnv tracing :=
  @Runtime.Build_HostEnv tracing (list string) string
    (fun code w =>
       if String.eqb code "answer.wppl" then
         (Runtime.ECompiled (fun s k a w =>
            Runtime.Return (Runtime.VData (Prim (PNum 42))) (w ++ [note s k a])), w)
       else if String.eqb code "crash.wppl" then
         (Runtime.ECompiled (fun s k a w =>
            Runtime.Throw (Runtime.VData (Host "Error")) (w ++ [note s k a])), w)
       else (Runtime.ENotCallable, w))
    (fun exception (map : option string) w =>
       w ++ ["reported with map " +:+ default "undefined" map]).

(** Options with no package and no header. *)
Definition fromExtra : option (@Compiler.options tracing) :=
  Some (@Compiler.Options tracing None None
          (Some (@Compiler.Extra tracing [] [])) None).

(** Thunks over a host without state: one that returns [final], and [n] of
    them in a row. *)
Definition lastThunk (final : tree) : Runtime.value unit :=
  Runtime.VFun (fun w => Runtime.Return (Runtime.VData final) w).

Fixpoint countdown (n : nat) (final : tree) : Runtime.value unit :=
  match n with
  | 0 => lastThunk final
  | S n => Runtime.VFun (fun w => Runtime.Return (countdown n final) w)
  end.

(** A deep copy for [paramStruct.deepCopy] to be: a new object whose arrays
    hold new tensors with the data of the old ones.  [None] on something that
    is not a parameter object. *)
Fixpoint cloneTensors {T I} (ls : list positive) (σ : Optimize.state T I)
  : option (list positive * Optimize.state T I) :=
  match ls with
  | [] => Some ([], σ)
  | l :: ls =>
      match Optimize.heap σ !! l with
      | Some (Optimize.CTensor t) =>
          let '(l', σ1) := Optimize.alloc (Optimize.CTensor t) σ in
          '(ls', σ2) ← cloneTensors ls σ1;
          Some (l' :: ls', σ2)
      | _ => None
      end
  end.

Fixpoint cloneEntries {T I} (es : Optimize.struct positive) (σ : Optimize.state T I)
  : option (Optimize.struct positive * Optimize.state T I) :=
  match es with
  | [] => Some ([], σ)
  | (name, ls) :: es =>
      '(ls', σ1) ← cloneTensors ls σ;
      '(es', σ2) ← cloneEntries es σ1;
      Some ((name, ls') :: es', σ2)
  end.

Definition cloneParams {T I} (params : positive) (σ : Optimize.state T I)
  : option (positive * Optimize.state T I) :=
  match Optimize.heap σ !! params with
  | Some (Optimize.CParams es) =>
      '(es', σ1) ← cloneEntries es σ;
      Some (Optimize.alloc (Optimize.CParams es') σ1)
  | _ => None
  end.

(** Collaborators for [Optimize] over integers: [paramStruct.deepCopy] is
    [cloneParams]; each estimator answers with a constant gradient and touches
    nothing; the optimisation methods [sgd] and [adam] lower every tensor of
    the parameter object they are handed by one, in place, and there is no
    other; a loop of [n] turns has the turns [0 .. n-1]. *)
Definition lower (c : Optimize.cell Z) : Optimize.cell Z :=
  match c with
  | Optimize.CTensor t => Optimize.CTensor (t - 1)%Z
  | Optimize.CParams es => Optimize.CParams es
  end.

Definition descend (p : positive) (h : gmap positive (Optimize.cell Z))
  : gmap positive (Optimize.cell Z) :=
  match h !! p with
  | Some (Optimize.CParams es) => foldr (alter lower) h (mjoin (map snd es))
  | _ => h
  end.

Definition constantGradient (wpplFn s : unit) (a : string) (p : positive) (i : nat)
    (σ : Optimize.state Z unit)
  : (Optimize.struct Z * Z) * Optimize.state Z unit :=
  (([("w", [1%Z])], 0%Z), σ).

Definition lowering (gradObj : Optimize.struct Z) (p : positive) (i : nat)
    (σ : Optimize.state Z unit) : Optimize.state Z unit :=
  Optimize.State (descend p (Optimize.heap σ)) (Optimize.console σ)
                 (Optimize.issuedGradWarning σ) (Optimize.collaborators σ).

Definition descent : Optimize.Collaborators :=
  Optimize.Build_Collaborators Z Z unit unit unit
    (fun t => negb (t =? 0)%Z)
    (fun _ => true)
    pretty
    (fun z => negb (z =? 0)%Z)
    (fun _ => 0%Z)
    (fun gradObj _ _ => gradObj)
    cloneParams
    constantGradient constantGradient constantGradient
    (fun name => if bool_decide (name = "sgd" ∨ name = "adam")
                 then Some lowering else None)
    (seq 0).

(** A gradient with nothing to warn about, and a state with nothing in it. *)
Definition healthy : Optimize.struct Z := [("w", [1%Z; 2%Z]); ("b", [3%Z])].

Definition blank : Optimize.state Z unit := Optimize.State ∅ [] ∅ tt.

(** A heap with the parameter object [{w: [5]}] at 1, and the options
    [{params: <1>, steps: 3}]. *)
Definition someParams : Optimize.state Z unit :=
  Optimize.State
    (<[1%positive := Optimize.CParams [("w", [2%positive])]]>
       (<[2%positive := Optimize.CTensor 5%Z]> ∅))
    [] ∅ tt.

Definition threeSteps {R} : @Optimize.options descent R :=
  @Optimize.Options descent R (Some 1%positive) None None (Some 3) None None None None.

(** A heap with the program [{body: [{type: 'EmptyStatement'}]}] at 1, and a
    heap whose only object is an array that holds itself. *)
Definition astHeap : gmap positive AstHeap.obj :=
  <[1%positive := AstHeap.OObj [("type", AstHeap.VPrim (PStr "Program"));
                                ("body", AstHeap.VRef 2%positive)]]>
    (<[2%positive := AstHeap.OArr [AstHeap.VRef 3%positive]]>
       (<[3%positive := AstHeap.OObj [("type", AstHeap.VPrim (PStr "EmptyStatement"))]]>
          ∅)).

Definition knot : gmap positive AstHeap.obj :=
  <[1%positive := AstHeap.OArr [AstHeap.VRef 1%positive]]> ∅.

(** A thunk that throws, and a thunk that returns it. *)
Definition throwing : Runtime.value unit :=
  Runtime.VFun (fun w => Runtime.Throw (Runtime.VData (Host "Error")) w).

Definition thenThrowing : Runtime.value unit :=
  Runtime.VFun (fun w => Runtime.Return throwing w).


End Examples.

(** * Properties *)

(** ** Programs and pipelines *)

Lemma body_foldl_concat (programs : list program) (acc : program) :
  body (foldl concat acc programs) = body acc ++ mjoin (map body programs).
Proof.
  revert acc. induction programs as [|p programs IH]; intros acc; simpl.
  - by rewrite app_nil_r.
  - rewrite IH. simpl. by rewrite <- app_assoc.
Qed.

Lemma program_eq (p q : program) : body p = body q -> p = q.
Proof. destruct p, q; simpl; congruence. Qed.

(** C10.  The body of [concatPrograms programs] is the bodies of the programs
    one after the other, in list order; the empty list gives the empty
    program, and [concatPrograms] sends the concatenation of two lists to the
    concatenation of the two programs. *)
Theorem concatPrograms_homomorphism (programs programs' : list program) :
  body (concatPrograms programs) = mjoin (map body programs) /\
  concatPrograms [] = emptyProgram /\
  concatPrograms (programs ++ programs')
  = concat (concatPrograms programs) (concatPrograms programs').
Proof.
  split; [|split].
  - unfold concatPrograms. by rewrite body_foldl_concat.
  - reflexivity.
  - apply program_eq. unfold concatPrograms. simpl.
    rewrite !body_foldl_concat. simpl. by rewrite map_app, join_app.
Qed.

Example concatPrograms_three :
  concatPrograms [build_program [Prim (PNum 1)]; build_program [];
                  build_program [Prim (PNum 2); Prim (PNum 3)]]
  = build_program [Prim (PNum 1); Prim (PNum 2); Prim (PNum 3)].
Proof. reflexivity. Qed.

Lemma pipeline_stages_of_list {A} (fns : list (A -> A)) (x : A) :
  pipeline (stages_of_list fns) x = foldl (fun y f => f y) x fns.
Proof. revert x. induction fns as [|f fns IH]; intros x; simpl; auto. Qed.

Lemma pipeline_app {A} (fns gns : list (A -> A)) (x : A) :
  pipeline (stages_of_list (fns ++ gns)) x
  = pipeline (stages_of_list gns) (pipeline (stages_of_list fns) x).
Proof. by rewrite !pipeline_stages_of_list, foldl_app. Qed.

(** ** Copies of ASTs *)

Lemma tree_nested_ind (P : tree -> Prop) :
  (forall p, P (Prim p)) ->
  (forall elts, Forall P elts -> P (Arr elts)) ->
  (forall props, Forall (fun kv => P kv.2) props -> P (Obj props)) ->
  (forall tag, P (Host tag)) ->
  forall t, P t.
Proof.
  intros HPrim HArr HObj HHost. fix IH 1. intros [p|elts|props|tag].
  - apply HPrim.
  - apply HArr. induction elts as [|t elts IHelts]; constructor; auto.
  - apply HObj. induction props as [|[key t] props IHprops]; constructor; auto.
  - apply HHost.
Qed.

(** On a tree of primitives, arrays and plain objects, what [copyAst] stores
    under a key is structurally the value it read. *)
Lemma copyAst_plain (t : tree) :
  plain t = true -> (if isObject t then copyAst t else t) = t.
Proof.
  induction t as [p|elts IH|props IH|tag] using tree_nested_ind;
    simpl; intros Hplain; auto.
  - f_equal. induction IH as [|t elts Ht _ IHelts]; simpl in *; auto.
    apply andb_true_iff in Hplain as [Hp Hps]. f_equal; auto.
  - f_equal. induction IH as [|[key t] props Ht _ IHprops]; simpl in *; auto.
    apply andb_true_iff in Hplain as [Hp Hps]. f_equal; auto.
    f_equal; auto.
  - discriminate.
Qed.

(** A RegExp inside a literal is not copied: an empty object takes its
    place. *)
Example copyAst_regexp :
  copyAst (Obj [("type", Prim (PStr "Literal")); ("value", Host "RegExp")])
  = Obj [("type", Prim (PStr "Literal")); ("value", Obj [])].
Proof. reflexivity. Qed.

Lemma copyProgram_plain (p : program) :
  forallb plain (body p) = true -> forallb ordinaryKeys (body p) = true ->
  copyProgram p = p.
Proof.
  intros Hplain _. apply program_eq.
  pose proof (copyAst_plain (Arr (body p)) Hplain) as Hcopy. simpl in Hcopy.
  unfold copyProgram, program_obj. simpl. rewrite Hcopy.
  unfold obj_program. simpl.
  rewrite lookup_insert_ne by discriminate. by rewrite lookup_insert_eq.
Qed.

(** ** The compiler driver *)

Section CompilerProperties.
Context `{E : Externals}.
Import Compiler.

(** The header is the first package and comes with two macro modules: the
    assertion of [addHeaderMacrosToEachPair] holds, whatever the packages. *)
Lemma parsePackageCode_total (packages : list (package string)) :
  is_Some (parsePackageCode packages).
Proof. unfold parsePackageCode. simpl. eauto. Qed.

Lemma extraOf_total (o : options) : is_Some (extraOf o).
Proof.
  unfold extraOf. destruct (opt_extra o); eauto using parsePackageCode_total.
Qed.

Lemma transformAsts_unfold (ts : list (program -> program)) (asts : list program) :
  transformAsts ts asts
  = foldl (fun ast pass => pass ast)
          (if doCaching asts then freevars (concatPrograms (applyCaching asts))
           else concatPrograms asts)
          ts.
Proof.
  unfold transformAsts, cachingStage. simpl. rewrite pipeline_stages_of_list.
  by destruct (doCaching asts).
Qed.

(** C1, as the code has it.  [compile] succeeds, and what it generates code
    from (or hands back, when no code is asked for) is: the units, each put
    through the caching transform first when caching is required (unless it
    opts out), concatenated, put through the free-variable analysis when
    caching is required, and then through the transforms of
    [options.transforms] in list order, each consuming the AST of the one
    before; without [options.transforms] these are thunkify, naming, cps,
    store, optimize, varargs and trampoline, in this order. *)
Theorem compile_pass_order (filename code : string) (o : options) :
  exists ex, extraOf o = Some ex /\
    let asts := sourceAsts filename code ex in
    let unit := if doCaching asts
                then freevars (concatPrograms (applyCaching asts))
                else concatPrograms asts in
    let ast := foldl (fun ast pass => pass ast) unit
                     (default defaultTransforms (transforms o)) in
    compile filename code o
    = Some (if default true (generateCode o)
            then CodeAndMap (escodegen_generate ast filename code).1
                            (escodegen_generate ast filename code).2
            else TransformedAst ast) /\
    foldl (fun ast pass => pass ast) unit defaultTransforms
    = trampoline (varargs (optimize (store (cps (naming (thunkify unit)))))).
Proof.
  destruct (extraOf_total o) as [ex Hex]. exists ex. split; [exact Hex|].
  split; [|reflexivity].
  unfold compile. rewrite Hex. simpl. by rewrite transformAsts_unfold.
Qed.

(** Taking [optimize] out of the list: the two ASTs differ by one
    application of [optimize] under [varargs] and [trampoline]. *)
Lemma transformAsts_without_optimize (asts : list program) :
  exists ast,
    transformAsts defaultTransforms asts = trampoline (varargs (optimize ast)) /\
    transformAsts [thunkify; naming; cps; store; varargs; trampoline] asts
    = trampoline (varargs ast).
Proof. eexists. by rewrite !transformAsts_unfold. Qed.

(** C4, as the code has it.  The caching transform is applied to a unit
    exactly when some unit of the compilation requires it and the unit itself
    carries no directive against it; this is the list of units [compile]
    concatenates and transforms further. *)
Theorem caching_applied_unless_opted_out
    (ts : list (program -> program)) (asts : list program) :
  let staged :=
    map (fun ast => if doCaching asts && negb (caching_hasNoCachingDirective ast)
                    then caching_transform ast else ast) asts in
  cachingStage asts asts = staged /\
  transformAsts ts asts
  = foldl (fun ast pass => pass ast)
          ((if doCaching asts then freevars else identity) (concatPrograms staged))
          ts.
Proof.
  assert (cachingStage asts asts
          = map (fun ast => if doCaching asts && negb (caching_hasNoCachingDirective ast)
                            then caching_transform ast else ast) asts) as Hstage.
  { unfold cachingStage, applyCaching. destruct (doCaching asts); simpl.
    - apply map_ext. intros ast. by destruct (caching_hasNoCachingDirective ast).
    - unfold identity. by rewrite map_id. }
  simpl. split; [exact Hstage|].
  rewrite <- Hstage. unfold transformAsts. simpl. by rewrite pipeline_stages_of_list.
Qed.

End CompilerProperties.

Section TracedCompilation.
Import Compiler Examples.

(** The header alone: its code is parsed with its two macro modules and, once
    more, the first of them. *)
Example parsePackageCode_header :
  @parsePackageCode tracing []
  = Some (@Extra tracing [build_program (strs ["header"])]
            ["headerMacros"; "adMacros"]).
Proof. reflexivity. Qed.

(** Without options: the header comes first, no unit requires caching, and
    the seven transforms run in the order of the list. *)
Example compile_default :
  @compile tracing "main.wppl" "1" (Options None (Some false) None None)
  = Some (TransformedAst (build_program (strs
      ["header"; "1"; "thunkify"; "naming"; "cps"; "store"; "optimize";
       "varargs"; "trampoline"]))) /\
  @compile tracing "main.wppl" "1" noOptions
  = Some (@CodeAndMap tracing "main.wppl" "main.wppl.map").
Proof. split; reflexivity. Qed.

(** A unit that opts out is left alone when another one requires caching. *)
Example compile_no_caching_directive :
  @compile tracing "main.wppl" "IncrementalMH"
     (Options None (Some false)
        (Some (Extra [build_program (strs ["no caching"; "f"])] [])) (Some []))
  = Some (TransformedAst (build_program (strs
      ["no caching"; "f"; "IncrementalMH"; "caching"; "freevars"]))).
Proof. reflexivity. Qed.

(** C1, as stated, fails: a main program that requires caching is compiled to
    the marks below, caching and free variables first, optimize before
    varargs; the order of the specification gives another program. *)
Lemma compile_order_counterexample :
  let o := Options None (Some false) (Some (Extra [] [])) None in
  @compile tracing "main.wppl" "IncrementalMH" o
  = Some (TransformedAst (build_program (strs
      ["IncrementalMH"; "caching"; "freevars"; "thunkify"; "naming"; "cps";
       "store"; "optimize"; "varargs"; "trampoline"]))) /\
  @transformAsts_spec tracing (@sourceAsts tracing "main.wppl" "IncrementalMH" (Extra [] []))
  = build_program (strs
      ["IncrementalMH"; "naming"; "cps"; "store"; "varargs"; "optimize";
       "trampoline"; "freevars"; "caching"]) /\
  @compile tracing "main.wppl" "IncrementalMH" o
  <> Some (TransformedAst
       (@transformAsts_spec tracing
          (@sourceAsts tracing "main.wppl" "IncrementalMH" (Extra [] [])))).
Proof. simpl. split; [reflexivity|]. split; [reflexivity|]. discriminate. Qed.

(** C4, as stated, fails: the main program ['x'] does not require caching,
    a package does; the main program is transformed all the same. *)
Lemma caching_counterexample :
  let package := build_program (strs ["IncrementalMH"]) in
  let main := build_program (strs ["x"]) in
  let asts := [package; main] in
  @caching_transformRequired tracing main = false /\
  @cachingStage tracing asts asts !! 1 = Some (mark "caching" main) /\
  @cachingStage tracing asts asts <> @cachingStage_spec tracing asts /\
  @compile tracing "main.wppl" "x"
     (Options None (Some false) (Some (Extra [package] [])) (Some []))
  = Some (TransformedAst (build_program (strs
      ["IncrementalMH"; "caching"; "x"; "caching"; "freevars"]))).
Proof.
  simpl. split; [reflexivity|]. split; [reflexivity|].
  split; [discriminate|reflexivity].
Qed.

End TracedCompilation.

(** ** The driver loop *)

Section TrampolineProperties.
Import Runtime.
Context {W : Type}.

Lemma runTrampoline_falsy (fuel : nat) (t : value W) (w : W) :
  truthy t = false -> runTrampoline fuel t w = Some (Return undefined w).
Proof. intros Ht. destruct fuel; simpl; by rewrite Ht. Qed.

Lemma runTrampoline_thunk (fuel : nat) (f : W -> outcome W) (w : W) :
  runTrampoline (S fuel) (VFun f) w
  = match f w with
    | Return t' w' => runTrampoline fuel t' w'
    | Throw exception w' => Some (Throw exception w')
    end.
Proof. reflexivity. Qed.

Lemma runTrampoline_not_callable (fuel : nat) (d : tree) (w : W) :
  truthy (VData d : value W) = true ->
  runTrampoline (S fuel) (VData d) w = Some (Throw TypeError w).
Proof. intros Ht. cbn [runTrampoline]. by rewrite Ht. Qed.

(** More fuel does not change a result. *)
Lemma runTrampoline_fuel (fuel fuel' : nat) (t : value W) (w : W) (r : outcome W) :
  runTrampoline fuel t w = Some r -> fuel <= fuel' ->
  runTrampoline fuel' t w = Some r.
Proof.
  revert fuel' t w. induction fuel as [|fuel IH]; intros fuel' t w Hrun Hle.
  - simpl in Hrun. destruct (truthy t) eqn:Ht; [discriminate|].
    by rewrite runTrampoline_falsy.
  - destruct fuel' as [|fuel']; [lia|].
    cbn [runTrampoline] in *. destruct (truthy t); [|done].
    destruct (call t w); [|done]. apply IH; [done|lia].
Qed.

Lemma runTrampoline_bounces
    (n fuel : nat) (t : value W) (w : W) (d : tree) (w' : W) :
  bounces n t w (VData d) w' ->
  n < fuel ->
  runTrampoline fuel t w
  = Some (if truthy (VData d : value W)
          then Throw TypeError w' else Return undefined w').
Proof.
  intros Hb. revert fuel.
  remember (VData d) as t' eqn:Ht'.
  induction Hb as [t w|n f w t1 w1 t' w' Hf Hb IH]; intros fuel Hlt.
  - subst t. destruct fuel as [|fuel]; [lia|].
    destruct (truthy (VData d : value W)) eqn:Htruthy.
    + by apply runTrampoline_not_callable.
    + by apply runTrampoline_falsy.
  - destruct fuel as [|fuel]; [lia|].
    rewrite runTrampoline_thunk, Hf. apply IH; [done|lia].
Qed.

(** C2, as the code has it.  When [n] calls in a row return normally and the
    last result is not a function, the loop, given the fuel for them, has made
    exactly these calls; it then stops and returns [undefined] if that result
    is falsy, and throws a TypeError if it is not (the loop calls whatever is
    truthy).  The result itself is never returned. *)
Theorem runTrampoline_stops_when_falsy
    (n fuel : nat) (t : value W) (w : W) (d : tree) (w' : W) :
  bounces n t w (VData d) w' ->
  n < fuel ->
  runTrampoline fuel t w
  = Some (if truthy (VData d : value W)
          then Throw TypeError w' else Return undefined w').
Proof. apply runTrampoline_bounces. Qed.

(** A thunk that throws ends the loop with its exception. *)
Lemma runTrampoline_throws
    (n fuel : nat) (t : value W) (w : W) (f : W -> outcome W) (w1 : W)
    (exception : value W) (w' : W) :
  bounces n t w (VFun f) w1 ->
  f w1 = Throw exception w' ->
  n < fuel ->
  runTrampoline fuel t w = Some (Throw exception w').
Proof.
  intros Hb. revert fuel.
  remember (VFun f) as t' eqn:Ht'.
  induction Hb as [t w|n g w t1 w1' t' w'' Hg Hb IH]; intros fuel Hf Hlt.
  - subst t. destruct fuel as [|fuel]; [lia|]. by rewrite runTrampoline_thunk, Hf.
  - destruct fuel as [|fuel]; [lia|].
    rewrite runTrampoline_thunk, Hg. apply IH; [done|done|lia].
Qed.

End TrampolineProperties.

Section TrampolineExamples.
Import Runtime Examples.

Lemma bounces_countdown (n : nat) (final : tree) :
  bounces (S n) (countdown n final) tt (VData final) tt.
Proof.
  induction n as [|n IH]; simpl.
  - eapply bounces_S; [reflexivity|constructor].
  - eapply bounces_S; [reflexivity|exact IH].
Qed.

Lemma runTrampoline_stops_when_falsy_witness :
  runTrampoline 5 (countdown 3 (Prim (PNum 0))) tt = Some (Return undefined tt) /\
  runTrampoline 5 (countdown 3 (Prim (PNum 7))) tt = Some (Throw TypeError tt).
Proof.
  split.
  - apply (runTrampoline_stops_when_falsy 4 5 _ tt (Prim (PNum 0)) tt);
      [apply bounces_countdown|lia].
  - apply (runTrampoline_stops_when_falsy 4 5 _ tt (Prim (PNum 7)) tt);
      [apply bounces_countdown|lia].
Defined.

(** C2, as stated, fails: the last thunk returns the ordinary value [0], and
    the loop, whatever the fuel, does not return it; the loop of the
    specification does. *)
Lemma runTrampoline_counterexample :
  bounces 1 (lastThunk (Prim (PNum 0))) tt (VData (Prim (PNum 0))) tt /\
  runTrampoline_spec 2 (lastThunk (Prim (PNum 0))) tt
  = Some (Return (VData (Prim (PNum 0))) tt) /\
  forall fuel,
    runTrampoline fuel (lastThunk (Prim (PNum 0))) tt
    <> Some (Return (VData (Prim (PNum 0))) tt).
Proof.
  split; [eapply bounces_S; [reflexivity|constructor]|].
  split; [reflexivity|].
  intros [|fuel]; [discriminate|].
  unfold lastThunk. rewrite runTrampoline_thunk.
  by rewrite runTrampoline_falsy.
Qed.

End TrampolineExamples.

(** ** run *)

Section RunProperties.
Import Compiler Runtime.
Context `{H : HostEnv}.

Lemma run_unfold (filename code : string) (k : kont) (o : option options)
    (w : world) (c : compiled) :
  compile filename code (default noOptions o) = Some c ->
  run filename code k o w
  = Return undefined
      match runCompiled c k w with
      | Return _ w' => w'
      | Throw exception w' => printFriendlyStackTrace exception (map_of c) w'
      end.
Proof. intros Hc. unfold run. rewrite Hc. by destruct (runCompiled c k w). Qed.

Lemma runCompiled_call (c : compiled) (k : kont) (w w1 : world)
    (f : compiledFn world kont) :
  evalCall (code_of c) w = (ECompiled f, w1) ->
  runCompiled c k w = f ∅ k "" w1.
Proof. intros He. unfold runCompiled. by rewrite He. Qed.

(** C6, as the code has it.  [run] calls what the generated code evaluates to
    with the empty store, the continuation it was given and the empty address,
    in this order.  [run] itself returns [undefined], in the state the call
    has left (after the report, when the call has thrown); what the call
    returns is dropped. *)
Theorem run_calls_with_store_continuation_address
    (filename code : string) (k : kont) (o : option options) (w w1 : world)
    (c : compiled) (f : compiledFn world kont) :
  compile filename code (default noOptions o) = Some c ->
  evalCall (code_of c) w = (ECompiled f, w1) ->
  run filename code k o w
  = Return undefined
      match f ∅ k "" w1 with
      | Return _ w' => w'
      | Throw exception w' => printFriendlyStackTrace exception (map_of c) w'
      end.
Proof.
  intros Hc He. rewrite (run_unfold _ _ _ _ _ _ Hc).
  by rewrite (runCompiled_call _ _ _ _ _ He).
Qed.

(** C7.  An exception thrown by the compiled function is caught by [run],
    which hands it to [printFriendlyStackTrace] together with the source map of
    the generated code and then returns normally: the exception goes no
    further, and the compiled code is not entered again. *)
Theorem run_reports_exceptions
    (filename code : string) (k : kont) (o : option options) (w w1 w' : world)
    (js : string) (map : sourceMap) (f : compiledFn world kont)
    (exception : value world) :
  compile filename code (default noOptions o) = Some (CodeAndMap js map) ->
  evalGlobal js w = (ECompiled f, w1) ->
  f ∅ k "" w1 = Throw exception w' ->
  run filename code k o w
  = Return undefined (printFriendlyStackTrace exception (Some map) w').
Proof.
  intros Hc He Hf. rewrite (run_unfold _ _ _ _ _ _ Hc).
  rewrite (runCompiled_call (CodeAndMap js map) k w w1 f He). by rewrite Hf.
Qed.

(** What the evaluation of the generated code throws, and the TypeError of
    calling what is not a function, are reported in the same way. *)
Lemma run_reports_all (filename code : string) (k : kont) (o : option options)
    (w w' : world) (c : compiled) (exception : value world) :
  compile filename code (default noOptions o) = Some c ->
  runCompiled c k w = Throw exception w' ->
  run filename code k o w
  = Return undefined (printFriendlyStackTrace exception (map_of c) w').
Proof. intros Hc Hr. rewrite (run_unfold _ _ _ _ _ _ Hc). by rewrite Hr. Qed.

End RunProperties.

Section RunExamples.
Import Compiler Runtime Examples.

Lemma run_calls_with_store_continuation_address_witness :
  @run tracing host "answer.wppl" "1" "k" fromExtra []
  = Return undefined
      ["called with store of size 0, continuation k, address ''"].
Proof.
  exact (@run_calls_with_store_continuation_address tracing host
           "answer.wppl" "1" "k" fromExtra [] []
           (@CodeAndMap tracing "answer.wppl" "answer.wppl.map") _ eq_refl eq_refl).
Defined.

(** C6, as stated, fails: the compiled program returns 42 and [run] returns
    [undefined]. *)
Lemma run_counterexample :
  @run_spec tracing host "answer.wppl" "1" "k" fromExtra []
  = Return (VData (Prim (PNum 42)))
      ["called with store of size 0, continuation k, address ''"] /\
  @run tracing host "answer.wppl" "1" "k" fromExtra []
  <> @run_spec tracing host "answer.wppl" "1" "k" fromExtra [].
Proof. split; [reflexivity|discriminate]. Qed.

Lemma run_reports_exceptions_witness :
  @run tracing host "crash.wppl" "1" "k" fromExtra []
  = Return undefined
      ["called with store of size 0, continuation k, address ''";
       "reported with map crash.wppl.map"].
Proof.
  exact (@run_reports_exceptions tracing host
           "crash.wppl" "1" "k" fromExtra [] [] _ "crash.wppl" "crash.wppl.map"
           _ _ eq_refl eq_refl eq_refl).
Defined.

End RunExamples.

(** ** Optimize *)

Section HeapProperties.
Import Optimize.
Context {T I : Type}.
Implicit Types (h : gmap loc (cell T)) (σ : state T I).

















End HeapProperties.

Section OptimizeProperties.
Import Optimize.
Context `{C : Collaborators}.











End OptimizeProperties.

(** *** A deep copy *)

Section CloneProperties.
Import Optimize Examples.
Context {T I : Type}.
Implicit Types (h : gmap loc (cell T)) (σ : state T I).




End CloneProperties.

Section OptimizeExamples.
Import Optimize Examples.








(** Three steps on [{w: [5]}]: the copy, a new object, holds [{w: [2]}], and
    the object passed in still holds [{w: [5]}]. *)
Example Optimize_three_steps :
  @Optimize descent _ tt
    (fun _ paramObj σ =>
       (paramObj, readParams (heap σ) paramObj, readParams (heap σ) 1%positive))
    "" tt threeSteps someParams
  = Returned (5%positive, Some [("w", [2%Z])], Some [("w", [5%Z])]).
Proof. vm_compute. reflexivity. Qed.

(** An optimisation method that does not exist: nothing is copied and no
    turn is made. *)
Example Optimize_unknown_method :
  @Optimize descent positive tt (fun _ paramObj _ => paramObj) "" tt
    (@Options descent positive (Some 1%positive) (Some "foo") None (Some 0)
       None None None None)
    someParams
  = @Threw descent positive (alloc (CParams []) someParams).2.
Proof. vm_compute. reflexivity. Qed.


End OptimizeExamples.

(** ** Packages *)

Section PackageProperties.
Context `{E : Externals}.
Import Compiler.

Lemma packagesToPairs_app (packages packages' : list (package macroModule)) :
  packagesToPairs (packages ++ packages')
  = packagesToPairs packages ++ packagesToPairs packages'.
Proof. unfold packagesToPairs. by rewrite map_app, join_app. Qed.

Lemma packagesToPairs_cons (pkg : package macroModule)
    (packages : list (package macroModule)) :
  packagesToPairs (pkg :: packages)
  = map (fun w => Pair w (macros pkg)) (wppl pkg) ++ packagesToPairs packages.
Proof. reflexivity. Qed.

(** X3.  [packagesToPairs] makes one pair for each file of code, in the order
    of the packages and of their files, and every pair carries the macros of
    the package its code comes from; it distributes over the concatenation of
    package lists. *)
Theorem packagesToPairs_codes (packages packages' : list (package macroModule)) :
  map pair_code (packagesToPairs packages) = mjoin (map wppl packages) /\
  Forall (fun p => exists pkg, pkg ∈ packages /\ pair_code p ∈ wppl pkg /\
                               pair_macros p = macros pkg)
         (packagesToPairs packages) /\
  packagesToPairs (packages ++ packages')
  = packagesToPairs packages ++ packagesToPairs packages'.
Proof.
  split; [|split; [|apply packagesToPairs_app]].
  - induction packages as [|pkg packages IH]; [done|].
    rewrite packagesToPairs_cons, map_app, IH. simpl. f_equal.
    rewrite map_map. simpl. apply map_id.
  - induction packages as [|pkg packages IH]; [constructor|].
    rewrite packagesToPairs_cons. apply Forall_app. split.
    + apply Forall_forall. intros p Hp.
      apply list_elem_of_In, in_map_iff in Hp as (w & <- & Hw).
      exists pkg. split; [by left|]. split; [by apply list_elem_of_In|done].
    + eapply Forall_impl; [exact IH|]. intros p (pkg' & Hin & Hcode & Hm).
      exists pkg'. split; [by right|done].
Qed.

(** The assertion of [addHeaderMacrosToEachPair] fails exactly when there is
    no pair or the macros of the first pair are not two. *)
Lemma addHeaderMacrosToEachPair_cases (pairs : list pair) :
  addHeaderMacrosToEachPair pairs
  = match pairs with
    | first :: _ =>
        if decide (length (pair_macros first) = 2) then
          Some (map (fun p =>
                       Pair (pair_code p)
                            (pair_macros p ++ take 1 (pair_macros first)))
                    pairs)
        else None
    | [] => None
    end.
Proof.
  destruct pairs as [|[code ms] pairs]; [done|].
  destruct ms as [|m1 [|m2 [|m3 ms]]]; reflexivity.
Qed.

Lemma parsePackageCode_value (packages : list (package string)) :
  let m1 := sweet_loadModule headerMacros_sjs in
  let m2 := sweet_loadModule ad_macros in
  parsePackageCode packages
  = Some (Extra
            (parse header_wppl [m1; m2; m1] ::
             mjoin (map (fun pkg =>
                           map (fun w => parse w (map sweet_loadModule (macros pkg)
                                                    ++ [m1]))
                               (wppl pkg))
                        packages))
            ([m1; m2] ++
             mjoin (map (fun pkg => map sweet_loadModule (macros pkg)) packages))).
Proof.
  unfold parsePackageCode. simpl. f_equal. f_equal.
  - f_equal. unfold packagesToPairs, parseAllPairs.
    induction packages as [|pkg packages IH]; [done|].
    simpl. rewrite !map_app, IH. f_equal.
    rewrite !map_map. by apply map_ext.
  - f_equal. f_equal. rewrite map_map. f_equal.
Qed.

(** X4.  [parsePackageCode] never fails the assertion on the header.  Its
    ASTs are the header, parsed with the two header macro modules and once
    more the first of them, followed by the files of each package in order,
    each parsed with the macro modules of its own package and then the first
    header macro module; its macros are the two of the header followed by
    those of the packages. *)
Theorem parsePackageCode_header_first (packages : list (package string)) :
  let m1 := sweet_loadModule headerMacros_sjs in
  let m2 := sweet_loadModule ad_macros in
  parsePackageCode packages
  = Some (Extra
            (parse header_wppl [m1; m2; m1] ::
             mjoin (map (fun pkg =>
                           map (fun w => parse w (map sweet_loadModule (macros pkg)
                                                    ++ [m1]))
                               (wppl pkg))
                        packages))
            ([m1; m2] ++
             mjoin (map (fun pkg => map sweet_loadModule (macros pkg)) packages))).
Proof. apply parsePackageCode_value. Qed.

End PackageProperties.

(** ** compile, continued *)

Section CompileProperties.
Context `{E : Externals}.
Import Compiler.

(** The header assertion does not fail inside [compile], and
    [options.generateCode] decides what is handed back. *)
Lemma compile_shape (filename code : string) (o : options) :
  match compile filename code o with
  | Some (CodeAndMap _ _) => generateCode o <> Some false
  | Some (TransformedAst _) => generateCode o = Some false
  | None => False
  end.
Proof.
  unfold compile. destruct (extraOf_total o) as [ex ->]. simpl.
  by destruct (generateCode o) as [[|]|].
Qed.

Lemma transformAsts_body (filename code : string) (ex : extra)
    (ts : list (program -> program)) :
  doCaching (sourceAsts filename code ex) = false ->
  transformAsts ts (sourceAsts filename code ex)
  = foldl (fun ast pass => pass ast)
          (build_program
             (mjoin (map (fun p => body (copyProgram p)) (asts ex))
              ++ body (addFilename (parse code (extra_macros ex)) filename)))
          ts.
Proof.
  intros Hno. rewrite transformAsts_unfold, Hno. f_equal.
  apply program_eq. unfold concatPrograms. rewrite body_foldl_concat. simpl.
  unfold sourceAsts. rewrite map_app, join_app, map_map. simpl.
  by rewrite app_nil_r.
Qed.

(** X5.  When no unit requires caching, the program the transforms start
    from holds the statements of the copies of [extra.asts], unit after unit
    (the header first), followed by the statements of the program being
    compiled, which come last. *)
Theorem compile_statement_order (filename code : string) (ex : extra)
    (ts : list (program -> program)) :
  doCaching (sourceAsts filename code ex) = false ->
  transformAsts ts (sourceAsts filename code ex)
  = foldl (fun ast pass => pass ast)
          (build_program
             (mjoin (map (fun p => body (copyProgram p)) (asts ex))
              ++ body (addFilename (parse code (extra_macros ex)) filename)))
          ts.
Proof. apply transformAsts_body. Qed.

End CompileProperties.

Section CompileExamples.
Import Compiler Examples.

Lemma compile_statement_order_witness :
  @transformAsts tracing [@cps tracing]
    (@sourceAsts tracing "main.wppl" "1"
       (@Extra tracing [build_program (strs ["header"])] []))
  = build_program (strs ["header"; "1"; "cps"]).
Proof.
  rewrite (@compile_statement_order tracing "main.wppl" "1"
             (@Extra tracing [build_program (strs ["header"])] [])
             [@cps tracing] eq_refl).
  reflexivity.
Defined.

End CompileExamples.

(** ** copyAst, continued *)



(** X7.  On an array or object made of primitives, arrays and plain objects,
    none of which has an own property named [length] or [__proto__],
    [copyAst] returns a structurally equal tree; an array is copied to an
    array and an object to an object. *)
Theorem copyAst_structural (t : tree) :
  plain t = true -> ordinaryKeys t = true -> isObject t = true ->
  copyAst t = t /\ isArray (copyAst t) = isArray t.
Proof.
  intros Hplain _ Hobj. pose proof (copyAst_plain t Hplain) as Hcopy.
  rewrite Hobj in Hcopy. by rewrite Hcopy.
Qed.

Lemma copyAst_structural_witness :
  copyAst (Obj [("type", Prim (PStr "Program"));
                ("body", Arr [Obj [("type", Prim (PStr "EmptyStatement"))]])])
  = Obj [("type", Prim (PStr "Program"));
         ("body", Arr [Obj [("type", Prim (PStr "EmptyStatement"))]])].
Proof.
  exact (proj1 (copyAst_structural
                  (Obj [("type", Prim (PStr "Program"));
                        ("body", Arr [Obj [("type", Prim (PStr "EmptyStatement"))]])])
                  eq_refl eq_refl eq_refl)).
Defined.

(** ** run and runTrampoline, continued *)

Section RunMoreProperties.
Import Compiler Runtime.
Context `{H : HostEnv}.

(** X8.  Once [compile] has handed back its result, [run] does not throw
    and evaluates to [undefined]: whatever the evaluation of the generated
    code or the compiled program throws ends in the [catch]. *)
Theorem run_never_throws (filename code : string) (k : kont) (o : option options)
    (w : world) (c : compiled) :
  compile filename code (default noOptions o) = Some c ->
  exists w', run filename code k o w = Return undefined w'.
Proof. intros Hc. rewrite (run_unfold _ _ _ _ _ _ Hc). eauto. Qed.


(** X10.  When the generated code does not evaluate to a function, no
    compiled function is called: what the evaluation threw, or the TypeError
    of calling what is not a function, is reported with the source map, in the
    state the evaluation has left. *)
Theorem run_not_a_function (filename code : string) (k : kont)
    (o : option options) (w : world) (js : string) (map : sourceMap) :
  compile filename code (default noOptions o) = Some (CodeAndMap js map) ->
  (forall f, (evalGlobal js w).1 <> ECompiled f) ->
  run filename code k o w
  = Return undefined
      (printFriendlyStackTrace
         match (evalGlobal js w).1 with
         | EThrown exception => exception
         | _ => TypeError
         end
         (Some map) (evalGlobal js w).2).
Proof.
  intros Hc Hnot. rewrite (run_unfold _ _ _ _ _ _ Hc).
  unfold runCompiled. simpl.
  destruct (evalGlobal js w) as [[f| |exception] w1]; simpl in *; try done.
  by destruct (Hnot f).
Qed.

End RunMoreProperties.

Section TrampolineMoreProperties.
Import Runtime.
Context {W : Type}.

Lemma runTrampoline_after (n fuel : nat) (t : value W) (w : W) (t' : value W) (w' : W) :
  bounces n t w t' w' ->
  runTrampoline (n + fuel) t w = runTrampoline fuel t' w'.
Proof.
  induction 1 as [t w|n f w t1 w1 t' w' Hf Hb IH]; [done|].
  cbn [Nat.add]. by rewrite runTrampoline_thunk, Hf.
Qed.

(** X11.  The loop from [t] is [n] calls followed by the loop from what the
    last of them returned, in the state it left: the calls happen one after
    the other, each in the state the one before has left. *)
Theorem runTrampoline_resumes (n fuel : nat) (t : value W) (w : W)
    (t' : value W) (w' : W) :
  bounces n t w t' w' ->
  runTrampoline (n + fuel) t w = runTrampoline fuel t' w'.
Proof. apply runTrampoline_after. Qed.

(** X12.  [runTrampoline] has no handler: when a thunk throws, the loop ends
    with that exception, in the state the thunk has left, and calls nothing
    more. *)
Theorem runTrampoline_propagates
    (n fuel : nat) (t : value W) (w : W) (f : W -> outcome W) (w1 : W)
    (exception : value W) (w' : W) :
  bounces n t w (VFun f) w1 ->
  f w1 = Throw exception w' ->
  n < fuel ->
  runTrampoline fuel t w = Some (Throw exception w').
Proof. apply runTrampoline_throws. Qed.

End TrampolineMoreProperties.

Section RunMoreExamples.
Import Compiler Runtime Examples.


Lemma run_never_throws_witness :
  exists w', @run tracing host "crash.wppl" "1" "k" fromExtra [] = Return undefined w'.
Proof.
  exact (@run_never_throws tracing host "crash.wppl" "1" "k" fromExtra [] _ eq_refl).
Defined.

Lemma run_not_a_function_witness :
  @run tracing host "other.wppl" "1" "k" fromExtra []
  = Return undefined ["reported with map other.wppl.map"].
Proof.
  refine (@run_not_a_function tracing host "other.wppl" "1" "k" fromExtra []
            "other.wppl" "other.wppl.map" eq_refl _).
  intros f. discriminate.
Defined.

Lemma runTrampoline_resumes_witness :
  runTrampoline (4 + 1) (countdown 3 (Prim (PNum 0))) tt
  = runTrampoline 1 (VData (Prim (PNum 0))) tt.
Proof.
  exact (runTrampoline_resumes 4 1 _ tt _ tt (bounces_countdown 3 (Prim (PNum 0)))).
Defined.

Lemma bounces_thenThrowing :
  bounces 1 thenThrowing tt throwing tt.
Proof. eapply bounces_S; [reflexivity|constructor]. Qed.

Lemma runTrampoline_propagates_witness :
  runTrampoline 2 thenThrowing tt = Some (Throw (VData (Host "Error")) tt).
Proof.
  refine (runTrampoline_propagates 1 2 thenThrowing tt _ tt _ tt
            bounces_thenThrowing eq_refl _).
  lia.
Defined.

End RunMoreExamples.

(** ** Gradient warnings *)

Section WarningProperties.
Import Optimize.
Context `{C : Collaborators}.

Lemma append_assoc (a b c : string) : (a +:+ b) +:+ c = a +:+ b +:+ c.
Proof.
  induction a as [|ch a IH]; [done|].
  change (String ch ((a +:+ b) +:+ c) = String ch (a +:+ b +:+ c)).
  by rewrite IH.
Qed.

Lemma logGradWarning_known (name : string) (i : nat) (problem : string) (σ : st) :
  name +:+ pretty i +:+ problem ∈ issuedGradWarning σ ->
  logGradWarning name i problem σ = σ.
Proof. intros Hin. unfold logGradWarning. by rewrite decide_True. Qed.

Lemma logGradWarning_issued (name : string) (i : nat) (problem : string) (σ : st) :
  name +:+ pretty i +:+ problem ∈ issuedGradWarning (logGradWarning name i problem σ).
Proof. unfold logGradWarning. case_decide; simpl; set_solver. Qed.

Lemma onlyWarns_refl (σ : st) : onlyWarns σ σ.
Proof.
  split; [done|]. split; [done|]. exists []. rewrite app_nil_r. simpl.
  split; [done|]. split; [done|lia].
Qed.

Lemma onlyWarns_trans (σ1 σ2 σ3 : st) :
  onlyWarns σ1 σ2 -> onlyWarns σ2 σ3 -> onlyWarns σ1 σ3.
Proof.
  intros (Hh & Hc & l1 & Hl1 & Hs1 & Hn1) (Hh' & Hc' & l2 & Hl2 & Hs2 & Hn2).
  split; [congruence|]. split; [congruence|]. exists (l1 ++ l2).
  split; [by rewrite Hl2, Hl1, app_assoc|]. split; [set_solver|].
  rewrite length_app. lia.
Qed.

Lemma logGradWarning_onlyWarns (name : string) (i : nat) (problem : string) (σ : st) :
  onlyWarns σ (logGradWarning name i problem σ).
Proof.
  unfold logGradWarning. case_decide as Hin; [apply onlyWarns_refl|].
  split; [done|]. split; [done|]. eexists [_]. simpl.
  split; [done|]. split; [set_solver|].
  rewrite size_union by set_solver. rewrite size_singleton. lia.
Qed.

Lemma checkGradient_onlyWarns (name : string) (i : nat) (g : tensor) (σ : st) :
  onlyWarns σ (checkGradient name i g σ).
Proof.
  unfold checkGradient. destruct (allZero g), (allFinite g);
    eauto using onlyWarns_refl, onlyWarns_trans, logGradWarning_onlyWarns.
Qed.

Lemma checkGrads_onlyWarns (name : string) (grads : list tensor) (i : nat) (σ : st) :
  onlyWarns σ (checkGrads name i grads σ).
Proof.
  revert i σ. induction grads as [|g grads IH]; intros i σ; simpl.
  - apply onlyWarns_refl.
  - eauto using onlyWarns_trans, checkGradient_onlyWarns.
Qed.

Lemma checkGradients_warns (gradObj : struct tensor) (σ : st) :
  onlyWarns σ (checkGradients gradObj σ).
Proof.
  unfold checkGradients. revert σ.
  induction gradObj as [|[name grads] gradObj IH]; intros σ; simpl.
  - apply onlyWarns_refl.
  - eauto using onlyWarns_trans, checkGrads_onlyWarns.
Qed.

(** X13.  [checkGradients] touches nothing but the console and the table of
    the warnings issued: the lines that were on the console stay, and every
    line it adds comes with one new key in the table. *)
Theorem checkGradients_only_warns (gradObj : struct tensor) (σ : st) :
  onlyWarns σ (checkGradients gradObj σ).
Proof. apply checkGradients_warns. Qed.

Lemma onlyWarns_issued (σ σ' : st) :
  onlyWarns σ σ' -> issuedGradWarning σ ⊆ issuedGradWarning σ'.
Proof. by intros (_ & _ & lines & _ & Hsub & _). Qed.

Lemma checkGradient_silent (name : string) (i : nat) (g : tensor) (σ τ : st) :
  issuedGradWarning (checkGradient name i g σ) ⊆ issuedGradWarning τ ->
  checkGradient name i g τ = τ.
Proof.
  unfold checkGradient. intros Hsub.
  assert (allZero g = true ->
          name +:+ pretty i +:+ "zero" ∈ issuedGradWarning τ) as Hzero.
  { intros Hz. rewrite Hz in Hsub. apply Hsub.
    destruct (allFinite g).
    - apply logGradWarning_issued.
    - eapply onlyWarns_issued; [apply logGradWarning_onlyWarns|].
      apply logGradWarning_issued. }
  assert (allFinite g = false ->
          name +:+ pretty i +:+ "not finite" ∈ issuedGradWarning τ) as Hfin.
  { intros Hf. rewrite Hf in Hsub. apply Hsub, logGradWarning_issued. }
  destruct (allZero g); [rewrite logGradWarning_known by auto|];
    (destruct (allFinite g); [done|by rewrite logGradWarning_known by auto]).
Qed.

Lemma checkGrads_silent (name : string) (grads : list tensor) (i : nat) (σ τ : st) :
  issuedGradWarning (checkGrads name i grads σ) ⊆ issuedGradWarning τ ->
  checkGrads name i grads τ = τ.
Proof.
  revert i σ. induction grads as [|g grads IH]; intros i σ Hsub; simpl in *; [done|].
  rewrite (checkGradient_silent name i g σ τ).
  - by apply (IH _ (checkGradient name i g σ)).
  - etrans; [|exact Hsub]. apply onlyWarns_issued, checkGrads_onlyWarns.
Qed.

Lemma checkGradients_silent (gradObj : struct tensor) (σ τ : st) :
  issuedGradWarning (checkGradients gradObj σ) ⊆ issuedGradWarning τ ->
  checkGradients gradObj τ = τ.
Proof.
  unfold checkGradients. revert σ.
  induction gradObj as [|[name grads] gradObj IH]; intros σ Hsub; simpl in *; [done|].
  rewrite (checkGrads_silent name grads 0 σ τ).
  - by apply (IH (checkGrads name 0 grads σ)).
  - etrans; [|exact Hsub]. apply onlyWarns_issued.
    apply (checkGradients_warns gradObj).
Qed.

(** X14.  Every warning is issued once: checking a gradient that has been
    checked before, in any later state that still has the table of the issued
    warnings, writes nothing; in particular checking twice in a row is
    checking once. *)
Theorem checkGradients_warns_once (gradObj : struct tensor) (σ τ : st) :
  issuedGradWarning (checkGradients gradObj σ) ⊆ issuedGradWarning τ ->
  checkGradients gradObj τ = τ /\
  checkGradients gradObj (checkGradients gradObj σ) = checkGradients gradObj σ.
Proof.
  intros Hsub. split; [by eapply checkGradients_silent|].
  by apply (checkGradients_silent gradObj σ).
Qed.

Lemma checkGrads_healthy (name : string) (grads : list tensor) (i : nat) (σ : st) :
  Forall (fun g => anyreduce g = true /\ allFiniteData g = true) grads ->
  checkGrads name i grads σ = σ.
Proof.
  intros Hall. revert i. induction Hall as [|g grads [Hz Hf] _ IH]; intros i; simpl;
    [done|].
  unfold checkGradient, allZero, allFinite. rewrite Hz, Hf. simpl. apply IH.
Qed.

(** X15.  A gradient none of whose tensors is all zero and all of whose
    tensors hold finite numbers only raises no warning: [checkGradients]
    leaves the state as it is. *)
Theorem checkGradients_healthy (gradObj : struct tensor) (σ : st) :
  Forall (fun entry : string * list tensor =>
            Forall (fun g => anyreduce g = true /\ allFiniteData g = true) entry.2)
         gradObj ->
  checkGradients gradObj σ = σ.
Proof.
  unfold checkGradients. intros Hall.
  induction Hall as [|[name grads] gradObj Hgrads _ IH]; simpl; [done|].
  by rewrite checkGrads_healthy.
Qed.

(** X16.  The key of a warning is [name + i + problem], with nothing between
    the name and the index: two parameters whose names followed by their
    indices read the same share their keys, and once a warning is issued for
    one of them the same warning for the other is never written. *)
Theorem logGradWarning_key_collision (name name' : string) (i i' : nat)
    (problem : string) (σ : st) :
  name +:+ pretty i = name' +:+ pretty i' ->
  logGradWarning name' i' problem (logGradWarning name i problem σ)
  = logGradWarning name i problem σ.
Proof.
  intros Hkey. apply logGradWarning_known.
  rewrite <- append_assoc, <- Hkey, append_assoc. apply logGradWarning_issued.
Qed.

End WarningProperties.

Section WarningExamples.
Import Optimize Examples.

Lemma checkGradients_warns_once_witness :
  @checkGradients descent [("w", [0%Z])] (@checkGradients descent [("w", [0%Z])] blank)
  = @checkGradients descent [("w", [0%Z])] blank.
Proof.
  refine (proj2 (@checkGradients_warns_once descent [("w", [0%Z])] blank
                   (@checkGradients descent [("w", [0%Z])] blank) _)).
  done.
Defined.

Lemma checkGradients_healthy_witness :
  @checkGradients descent healthy blank = blank.
Proof.
  apply (@checkGradients_healthy descent healthy blank).
  repeat constructor.
Defined.

Lemma logGradWarning_key_collision_witness :
  @logGradWarning descent "a" 11 "zero" (@logGradWarning descent "a1" 1 "zero" blank)
  = @logGradWarning descent "a1" 1 "zero" blank.
Proof.
  exact (@logGradWarning_key_collision descent "a1" "a" 1 11 "zero" blank eq_refl).
Defined.

(** The warning for [a1:1] is on the console; the one for [a:11] never gets
    there. *)
Example logGradWarning_collision_console :
  console (@logGradWarning descent "a" 11 "zero"
             (@logGradWarning descent "a1" 1 "zero" blank))
  = ["Gradient for param a1:1 is zero."].
Proof. vm_compute. reflexivity. Qed.

End WarningExamples.

(** ** Optimize, continued *)

Section OptimizeMoreProperties.
Import Optimize.
Context `{C : Collaborators}.


End OptimizeMoreProperties.

Section OptimizeMoreExamples.
Import Optimize Examples.


End OptimizeMoreExamples.

(** ** copyAst on a heap *)

Section AstHeapProperties.
Import AstHeap.

Lemma grown_dom (h h' : heap) (x : loc) : grown h h' -> x ∈ dom h -> x ∈ dom h'.
Proof.
  intros [Hold _] Hx. apply elem_of_dom. rewrite (Hold x Hx). by apply elem_of_dom.
Qed.

Lemma grown_refl (h : heap) : grown h h.
Proof.
  split; [done|]. intros x y Hx (o & Ho & _). destruct Hx. apply elem_of_dom. eauto.
Qed.

Lemma grown_trans (h1 h2 h3 : heap) : grown h1 h2 -> grown h2 h3 -> grown h1 h3.
Proof.
  intros H12 H23. pose proof H12 as [Hold12 Hnew12]. pose proof H23 as [Hold23 Hnew23].
  split.
  - intros x Hx. rewrite Hold23 by eauto using grown_dom. by apply Hold12.
  - intros x y Hx (o & Ho & Hy). destruct (decide (x ∈ dom h2)) as [Hin|Hout].
    + apply (Hnew12 x y Hx). exists o. by rewrite <- Hold23.
    + intros Hy1. apply (Hnew23 x y Hout); [by exists o|]. eauto using grown_dom.
Qed.

Lemma grown_alloc (o : obj) (h : heap) :
  entries o = [] -> grown h (alloc o h).2 /\ ((alloc o h).1 ∉ dom h).
Proof.
  intros Hempty. unfold alloc. simpl.
  assert (fresh (dom h) ∉ dom h) as Hfresh by apply is_fresh.
  split; [|done]. split.
  - intros x Hx. apply lookup_insert_ne. intros Heq. apply Hfresh. by rewrite Heq.
  - intros x y Hx (o' & Ho' & Hy). destruct (decide (fresh (dom h) = x)) as [<-|Hne].
    + rewrite lookup_insert_eq in Ho'. simplify_eq. rewrite Hempty in Hy.
      by apply elem_of_nil in Hy.
    + rewrite lookup_insert_ne in Ho' by done. destruct Hx. apply elem_of_dom. eauto.
Qed.

Lemma entries_emptyLike (o : obj) : entries (emptyLike o) = [].
Proof. by destruct o. Qed.

Lemma elem_of_snd_zip {A B} (ks : list A) (vs : list B) (v : B) :
  v ∈ map snd (zip ks vs) -> v ∈ vs.
Proof.
  revert vs. induction ks as [|k ks IH]; intros [|v' vs]; simpl;
    try (intros Hin; by apply elem_of_nil in Hin).
  intros [->|Hin]%elem_of_cons; [by left|]. right. by apply IH.
Qed.

Lemma entries_filled (o : obj) (vals : list val) (v : val) :
  v ∈ entries (filled o vals) -> v ∈ vals.
Proof.
  destruct o as [elts|props|tag]; simpl; [done| |].
  - apply elem_of_snd_zip.
  - intros Hin. by apply elem_of_nil in Hin.
Qed.

Lemma copyVals_grown (copy : loc -> heap -> option (loc * heap)) (vals : list val) :
  (forall l h l' h', copy l h = Some (l', h') -> grown h h' /\ (l' ∉ dom h)) ->
  forall h vals' h',
    copyVals copy vals h = Some (vals', h') ->
    grown h h' /\ (forall r, VRef r ∈ vals' -> r ∉ dom h) /\
    length vals' = length vals.
Proof.
  intros Hcopy. induction vals as [|[p|l] vals IH]; intros h vals' h' Hvals;
    cbn [copyVals] in Hvals.
  - simplify_eq. split; [apply grown_refl|]. split; [|done].
    intros r Hr. by apply elem_of_nil in Hr.
  - destruct (copyVals copy vals h) as [[vals1 h1]|] eqn:Hrest; simpl in Hvals;
      [|discriminate].
    simplify_eq. destruct (IH _ _ _ Hrest) as (Hg & Hrefs & Hlen).
    split; [done|]. split; [|simpl; by rewrite Hlen].
    intros r [Heq|Hr]%elem_of_cons; [discriminate|auto].
  - destruct (copy l h) as [[l1 h1]|] eqn:Hl; simpl in Hvals; [|discriminate].
    destruct (copyVals copy vals h1) as [[vals2 h2]|] eqn:Hrest; simpl in Hvals;
      [|discriminate].
    simplify_eq. destruct (Hcopy _ _ _ _ Hl) as [Hg1 Hnew1].
    destruct (IH _ _ _ Hrest) as (Hg2 & Hrefs & Hlen).
    split; [eauto using grown_trans|]. split; [|simpl; by rewrite Hlen].
    intros r [Heq|Hr]%elem_of_cons.
    + by simplify_eq.
    + intros Hin. apply (Hrefs r Hr). eauto using grown_dom.
Qed.

Lemma copyAst_grown (fuel : nat) :
  forall l h l' h',
    copyAst fuel l h = Some (l', h') -> grown h h' /\ (l' ∉ dom h).
Proof.
  induction fuel as [|fuel IH]; intros l h l' h' Hcopy; [discriminate|].
  cbn [copyAst] in Hcopy.
  destruct (h !! l) as [o|] eqn:Ho; cbn [mbind option_bind] in Hcopy; [|discriminate].
  destruct (grown_alloc (emptyLike o) h (entries_emptyLike o)) as [Hg1 Hnew].
  assert (is_Some ((alloc (emptyLike o) h).2 !! (alloc (emptyLike o) h).1)) as Hret1.
  { unfold alloc. simpl. rewrite lookup_insert_eq. eauto. }
  destruct (alloc (emptyLike o) h) as [ret h1]. simpl in Hg1, Hnew, Hret1.
  destruct (copyVals (copyAst fuel) (entries o) h1) as [[vals h2]|] eqn:Hvals;
    simpl in Hcopy; [|discriminate].
  injection Hcopy as Hl' Hh'. subst l' h'.
  destruct (copyVals_grown _ _ IH _ _ _ Hvals) as (Hg2 & Hrefs & _).
  assert (grown h h2) as Hg by eauto using grown_trans.
  assert (ret ∈ dom h1) as Hret by (by apply elem_of_dom).
  split; [|done]. split.
  - intros x Hx. rewrite lookup_insert_ne; [by apply Hg|].
    intros Heq. apply Hnew. by rewrite Heq.
  - intros x y Hx (o' & Ho' & Hy). destruct (decide (ret = x)) as [<-|Hne].
    + rewrite lookup_insert_eq in Ho'. simplify_eq.
      apply entries_filled in Hy. intros Hin. apply (Hrefs y Hy).
      eauto using grown_dom.
    + rewrite lookup_insert_ne in Ho' by done.
      destruct Hg as [_ Hnew']. apply (Hnew' x y Hx). by exists o'.
Qed.

Lemma copyAst_apart (fuel : nat) (l : loc) (h : heap) (l' : loc) (h' : heap) :
  copyAst fuel l h = Some (l', h') ->
  (forall x, x ∈ dom h -> h' !! x = h !! x) /\
  (forall x, rtc (refers h') l' x -> x ∉ dom h).
Proof.
  intros Hcopy. destruct (copyAst_grown fuel _ _ _ _ Hcopy) as [[Hold Hnew] Hl'].
  split; [exact Hold|]. intros x Hreach. clear Hcopy. revert Hl'.
  induction Hreach as [x|x y z Hxy _ IH]; intros Hx; [done|]. apply IH. eauto.
Qed.

(** X19.  [copyAst] writes to new objects only, and the copy shares nothing
    with what was there: every object that existed is as it was, and no
    object that can be reached from the copy existed before the call. *)
Theorem copyAst_shares_nothing (fuel : nat) (l : loc) (h : heap)
    (l' : loc) (h' : heap) :
  copyAst fuel l h = Some (l', h') ->
  (forall x, x ∈ dom h -> h' !! x = h !! x) /\
  (forall x, rtc (refers h') l' x -> x ∉ dom h).
Proof. apply copyAst_apart. Qed.

Lemma read_isObject (fuel : nat) (h : heap) (l : loc) (t : tree) :
  read fuel h l = Some t -> isObject t = true.
Proof.
  destruct fuel as [|fuel]; [discriminate|]. cbn [read].
  destruct (h !! l) as [o|]; simpl; [|discriminate].
  destruct (mapM _ _); simpl; [|discriminate].
  intros [= <-]. by destruct o.
Qed.

Lemma mapM_readVal_impl (rd rd' : loc -> option tree) (vals : list val)
    (ts : list tree) :
  (forall r t, VRef r ∈ vals -> rd r = Some t -> rd' r = Some t) ->
  mapM (readVal rd) vals = Some ts -> mapM (readVal rd') vals = Some ts.
Proof.
  rewrite !mapM_Some. intros Himpl Hall.
  induction Hall as [|v t vals ts Hv _ IH]; constructor.
  - destruct v as [p|r]; [done|]. simpl in *. apply Himpl; [by left|done].
  - apply IH. intros r t' Hr. apply Himpl. by right.
Qed.

(** What has been read stays readable as long as no object changes. *)
Lemma read_ext (h h' : heap) :
  (forall x, x ∈ dom h -> h' !! x = h !! x) ->
  forall fuel l t, read fuel h l = Some t -> read fuel h' l = Some t.
Proof.
  intros Hold. induction fuel as [|fuel IH]; intros l t; [discriminate|].
  cbn [read]. destruct (h !! l) as [o|] eqn:Ho; simpl; [|discriminate].
  rewrite Hold by (apply elem_of_dom; eauto). rewrite Ho. simpl.
  destruct (mapM (readVal (read fuel h)) (entries o)) as [ts|] eqn:Hts; simpl;
    [|discriminate].
  by rewrite (mapM_readVal_impl _ (read fuel h') _ _ (fun r t' _ => IH r t') Hts).
Qed.

(** Reading from an object outside [D] does not depend on the objects of [D]
    when no object outside [D] refers to one of [D]. *)
Lemma read_outside (D : gset loc) (h h' : heap) :
  (forall x, x ∉ D -> h' !! x = h !! x) ->
  (forall x y, x ∉ D -> refers h x y -> y ∉ D) ->
  forall fuel l t, l ∉ D -> read fuel h l = Some t -> read fuel h' l = Some t.
Proof.
  intros Hsame Hclosed. induction fuel as [|fuel IH]; intros l t Hl; [discriminate|].
  cbn [read]. destruct (h !! l) as [o|] eqn:Ho; simpl; [|discriminate].
  rewrite Hsame, Ho by done. simpl.
  destruct (mapM (readVal (read fuel h)) (entries o)) as [ts|] eqn:Hts; simpl;
    [|discriminate].
  assert (mapM (readVal (read fuel h')) (entries o) = Some ts) as ->; [|done].
  apply (mapM_readVal_impl (read fuel h)); [|done].
  intros r t' Hr. apply IH. apply (Hclosed l r Hl). by exists o.
Qed.

Lemma map_snd_zip {A B} (ks : list A) (vs : list B) :
  length ks = length vs -> map snd (zip ks vs) = vs.
Proof.
  revert vs. induction ks as [|k ks IH]; intros [|v vs] Hlen; simpl in *;
    try done. f_equal. apply IH. lia.
Qed.

Lemma map_fst_zip {A B} (ks : list A) (vs : list B) :
  length ks = length vs -> map fst (zip ks vs) = ks.
Proof.
  revert vs. induction ks as [|k ks IH]; intros [|v vs] Hlen; simpl in *;
    try done. f_equal. apply IH. lia.
Qed.

Lemma map_zip_snd {A B C} (f : B -> C) (ks : list A) (vs : list B) :
  map (fun kv : A * B => (kv.1, f kv.2)) (zip ks vs) = zip ks (map f vs).
Proof.
  revert vs. induction ks as [|k ks IH]; intros [|v vs]; simpl; try done.
  by rewrite IH.
Qed.

Lemma copyVals_read (fuel : nat) :
  (forall l h t, read fuel h l = Some t ->
     exists l' h', copyAst fuel l h = Some (l', h') /\
                   read fuel h' l' = Some (copyTree t)) ->
  forall vals h0 h ts,
    (forall x, x ∈ dom h0 -> h !! x = h0 !! x) ->
    mapM (readVal (read fuel h0)) vals = Some ts ->
    exists vals' h',
      copyVals (copyAst fuel) vals h = Some (vals', h') /\
      mapM (readVal (read fuel h')) vals'
      = Some (map (fun t => if isObject t then copyTree t else t) ts).
Proof.
  intros Hcopy. induction vals as [|[p|l] vals IH]; intros h0 h ts Hold Hts.
  - injection Hts as <-. by exists [], h.
  - cbn in Hts.
    destruct (mapM (readVal (read fuel h0)) vals) as [ts0|] eqn:Hrest;
      simpl in Hts; [|discriminate].
    injection Hts as <-.
    destruct (IH h0 h ts0 Hold Hrest) as (vals' & h' & Hvals & Hread).
    exists (VPrim p :: vals'), h'. cbn [copyVals]. rewrite Hvals. simpl.
    split; [done|]. cbn. by rewrite Hread.
  - cbn in Hts. destruct (read fuel h0 l) as [t|] eqn:Hl; simpl in Hts;
      [|discriminate].
    destruct (mapM (readVal (read fuel h0)) vals) as [ts0|] eqn:Hrest;
      simpl in Hts; [|discriminate].
    injection Hts as <-.
    destruct (Hcopy l h t (read_ext h0 h Hold _ _ _ Hl)) as (l1 & h1 & Hl1 & Hread1).
    destruct (copyAst_grown fuel _ _ _ _ Hl1) as [Hg1 _].
    assert (forall x, x ∈ dom h0 -> h1 !! x = h0 !! x) as Hold1.
    { intros x Hx. rewrite <- (Hold x Hx). apply Hg1.
      apply elem_of_dom. rewrite (Hold x Hx). by apply elem_of_dom. }
    destruct (IH h0 h1 ts0 Hold1 Hrest) as (vals' & h2 & Hvals & Hread).
    destruct (copyVals_grown _ vals (copyAst_grown fuel) _ _ _ Hvals) as ([Hold2 _] & _).
    exists (VRef l1 :: vals'), h2. cbn [copyVals]. rewrite Hl1. simpl.
    rewrite Hvals. simpl. split; [done|]. cbn.
    rewrite (read_ext h1 h2 Hold2 _ _ _ Hread1). simpl. rewrite Hread. simpl.
    by rewrite (read_isObject _ _ _ _ Hl).
Qed.

Lemma copyAst_reads (fuel : nat) :
  forall l h t,
    read fuel h l = Some t ->
    exists l' h', copyAst fuel l h = Some (l', h') /\
                  read fuel h' l' = Some (copyTree t).
Proof.
  induction fuel as [|fuel IH]; intros l h t Hread; [discriminate|].
  cbn [read] in Hread. cbn [copyAst].
  destruct (h !! l) as [o|] eqn:Ho; cbn [mbind option_bind] in *; [|discriminate].
  destruct (mapM (readVal (read fuel h)) (entries o)) as [ts|] eqn:Hts;
    cbn [mbind option_bind] in Hread; [|discriminate].
  injection Hread as <-.
  destruct (grown_alloc (emptyLike o) h (entries_emptyLike o)) as [[Hold1 _] _].
  assert (is_Some ((alloc (emptyLike o) h).2 !! (alloc (emptyLike o) h).1)) as Hret1.
  { unfold alloc. simpl. rewrite lookup_insert_eq. eauto. }
  destruct (alloc (emptyLike o) h) as [ret h1]. simpl in Hold1, Hret1.
  destruct (copyVals_read fuel IH (entries o) h h1 ts Hold1 Hts)
    as (vals & h2 & Hvals & Hreadvals).
  destruct (copyVals_grown _ _ (copyAst_grown fuel) _ _ _ Hvals)
    as ([Hold2 Hnew2] & Hrefs & Hlen).
  rewrite Hvals. cbn [mbind option_bind].
  exists ret, (<[ret := filled o vals]> h2). split; [done|].
  assert (ret ∈ dom h1) as Hret by (by apply elem_of_dom).
  assert (mapM (readVal (read fuel (<[ret := filled o vals]> h2))) vals
          = Some (map (fun t => if isObject t then copyTree t else t) ts)) as Hfinal.
  { apply (mapM_readVal_impl (read fuel h2)); [|done].
    intros r t Hr. apply (read_outside (dom h1) h2).
    - intros x Hx. apply lookup_insert_ne. intros Heq. apply Hx. by rewrite <- Heq.
    - exact Hnew2.
    - by apply Hrefs. }
  pose proof (length_mapM _ _ _ Hts) as Hlents.
  cbn [read]. rewrite lookup_insert_eq. cbn [mbind option_bind].
  destruct o as [elts|props|tag]; simpl in *.
  - rewrite Hfinal. done.
  - rewrite length_map in Hlen, Hlents.
    rewrite map_snd_zip by (rewrite length_map; lia).
    rewrite Hfinal. simpl. rewrite map_fst_zip by (rewrite length_map; lia).
    do 2 f_equal. symmetry.
    apply (map_zip_snd (fun t : tree => if isObject t then copyTree t else t)).
  - by injection Hts as <-.
Qed.

(** X20.  On an object that stands for a tree no deeper than the fuel, in
    which no object has an own property named [length] or [__proto__],
    [copyAst] returns, and its copy stands for the tree that [copyAst] on
    trees computes: an equal tree, but for the host objects, which have
    become empty objects. *)
Theorem copyAst_refines (fuel : nat) (l : loc) (h : heap) (t : tree) :
  read fuel h l = Some t -> ordinaryKeys t = true ->
  exists l' h', copyAst fuel l h = Some (l', h') /\
                read fuel h' l' = Some (copyTree t).
Proof. intros Hread _. by apply copyAst_reads. Qed.

Lemma copyVals_stuck (copy : loc -> heap -> option (loc * heap)) (h0 : heap)
    (y : loc) (vals : list val) :
  (forall l h l' h', copy l h = Some (l', h') -> grown h h') ->
  (forall h', (forall x, x ∈ dom h0 -> h' !! x = h0 !! x) -> copy y h' = None) ->
  VRef y ∈ vals ->
  forall h, (forall x, x ∈ dom h0 -> h !! x = h0 !! x) -> copyVals copy vals h = None.
Proof.
  intros Hgrown Hstuck. induction vals as [|v vals IH]; intros Hy h Hold.
  - by apply elem_of_nil in Hy.
  - destruct v as [p|l]; cbn [copyVals].
    + apply elem_of_cons in Hy as [Heq|Hy]; [discriminate|].
      by rewrite (IH Hy h Hold).
    + destruct (copy l h) as [[l1 h1]|] eqn:Hl; [|done]. simpl.
      apply elem_of_cons in Hy as [Heq|Hy].
      { injection Heq as ->. by rewrite (Hstuck h Hold) in Hl. }
      destruct (Hgrown _ _ _ _ Hl) as [Hold1 _].
      rewrite (IH Hy h1); [done|].
      intros x Hx. rewrite <- (Hold x Hx). apply Hold1.
      apply elem_of_dom. rewrite (Hold x Hx). by apply elem_of_dom.
Qed.

Lemma copyAst_stuck (h : heap) (fuel : nat) :
  forall x h', tc (refers h) x x ->
               (forall z, z ∈ dom h -> h' !! z = h !! z) ->
               copyAst fuel x h' = None.
Proof.
  induction fuel as [|fuel IH]; intros x h' Hcycle Hold; [done|].
  assert (exists y, refers h x y /\ tc (refers h) y y) as (y & Hxy & Hy).
  { inversion Hcycle as [? ? Hxx|? y ? Hxy Hyx]; subst.
    - exists x. split; [done|]. by apply tc_once.
    - exists y. split; [done|]. eapply tc_r; [exact Hyx|exact Hxy]. }
  destruct Hxy as (o & Ho & Href).
  cbn [copyAst]. rewrite Hold by (apply elem_of_dom; eauto). rewrite Ho.
  cbn [mbind option_bind].
  destruct (grown_alloc (emptyLike o) h' (entries_emptyLike o)) as [[Hold1 _] _].
  destruct (alloc (emptyLike o) h') as [ret h1]. simpl in Hold1.
  rewrite (copyVals_stuck (copyAst fuel) h y (entries o)); [done| | |done|].
  - intros l0 h0 l0' h0' Hc. by destruct (copyAst_grown fuel _ _ _ _ Hc).
  - intros h'' Hold''. by apply IH.
  - intros z Hz. rewrite <- (Hold z Hz). apply Hold1.
    apply elem_of_dom. rewrite (Hold z Hz). by apply elem_of_dom.
Qed.

Lemma visits_refers (h : heap) (x y : loc) :
  tc (visits h) x y -> tc (refers h) x y.
Proof.
  apply (tc_congruence (fun z => z)). intros x' y' (o & Ho & _ & Href).
  by exists o.
Qed.

(** X21.  On an object that can be reached from itself through arrays and
    objects without an own property named [length], [copyAst] never returns
    a copy: whatever the depth allowed, the calls have not come to an end. *)
Theorem copyAst_cycle (h : heap) (l : loc) (fuel : nat) :
  tc (visits h) l l -> copyAst fuel l h = None.
Proof.
  intros Hcycle. by apply (copyAst_stuck h fuel l h (visits_refers h l l Hcycle)).
Qed.

End AstHeapProperties.

Section AstHeapExamples.
Import AstHeap Examples.

Lemma copyAst_shares_nothing_witness :
  <[4%positive := OObj [("type", VPrim (PStr "Program"));
                        ("body", VRef 5%positive)]]>
    (<[6%positive := OObj [("type", VPrim (PStr "EmptyStatement"))]]>
       (<[5%positive := OArr [VRef 6%positive]]> astHeap)) !! 1%positive
  = astHeap !! 1%positive.
Proof.
  refine (proj1 (copyAst_shares_nothing 3 1%positive astHeap 4%positive _ _)
            1%positive _).
  - vm_compute. reflexivity.
  - apply elem_of_dom. eexists. reflexivity.
Defined.

Lemma copyAst_refines_witness :
  exists l' h', copyAst 3 1%positive astHeap = Some (l', h') /\
                read 3 h' l'
                = Some (copyTree
                          (Obj [("type", Prim (PStr "Program"));
                                ("body",
                                 Arr [Obj [("type", Prim (PStr "EmptyStatement"))]])])).
Proof.
  apply (copyAst_refines 3 1%positive astHeap); vm_compute; reflexivity.
Defined.

Lemma copyAst_cycle_witness : copyAst 7 1%positive knot = None.
Proof.
  apply copyAst_cycle. apply tc_once. exists (OArr [VRef 1%positive]).
  split; [reflexivity|]. split; [reflexivity|].
  apply list_elem_of_singleton. reflexivity.
Defined.

End AstHeapExamples.
